(** * A shallow embedding of reptree-rs (crdt/, storage/sqlite.rs, types/)

    Conventions of the embedding:
    - [u64] and [i64] values are [N] and [Z]; the unchecked [+ 1] of the Rust
      code is [wrapping_add_u64] (the release-profile wrap-around; a debug
      build panics at the same point instead).
    - A [HashMap] is an association list without duplicate keys; its
      unspecified iteration order is the order of the list, so theorems that
      quantify over the list hold for every iteration order.
    - The SQLite tables are lists of rows in rowid order.  [INSERT OR REPLACE]
      deletes the conflicting row and appends a fresh one; an AUTOINCREMENT
      [seq] is the 1-based position of the row (the logs are never deleted
      from).  SQLite calls are assumed not to fail and the JSON payloads to
      round-trip. *)

From Stdlib Require Import String List NArith ZArith Bool Lia.
From Stdlib Require Import Permutation Sorted.
Import ListNotations.
Local Open Scope string_scope.
Local Open Scope list_scope.
Set Warnings "-register-all,-abstract-large-number".
Open Scope N_scope.

(* ------------------------------------------------------------------ *)
(** ** Machine integers *)

Definition U64_MAX : N := 2 ^ 64 - 1.

(** [a + b] on [u64] as a release build computes it. *)
Definition wrapping_add_u64 (a b : N) : N := (a + b) mod 2 ^ 64.

(** [a + b] on [i64] as a release build computes it. *)
Definition wrapping_add_i64 (a b : Z) : Z :=
  ((a + b + 2 ^ 63) mod 2 ^ 64 - 2 ^ 63)%Z.

(* ------------------------------------------------------------------ *)
(** ** types/mod.rs *)

Definition VertexId := string.

Module Error.
Inductive t :=
| VertexNotFound (id : VertexId)
| Storage
| InvalidOperation (msg : string)
| Serialization.
End Error.

Inductive result (A : Type) :=
| Ok (a : A)
| Err (e : Error.t).
Arguments Ok {A} a.
Arguments Err {A} e.

Module OpId.
Record t := new { peer_id : string; counter : N }.

(** [OpId::compare]: counter first, then peer id. *)
Definition compare (a b : t) : comparison :=
  match N.compare (counter a) (counter b) with
  | Eq => String.compare (peer_id a) (peer_id b)
  | other => other
  end.
End OpId.

Module VertexPropertyType.
(** [Number(f64)] is kept as the IEEE-754 bit pattern of the double. *)
Inductive t :=
| String (s : string)
| Boolean (b : bool)
| Number (bits : N)
| Integer (i : Z)
| Null
| Array (xs : list t)
| Object (m : list (string * t))
| YDoc (bytes : list Byte.byte).
End VertexPropertyType.

Module MoveVertex.
Record t := mk {
  id : OpId.t;
  target_id : VertexId;
  parent_id : option VertexId;
  timestamp : N }.
End MoveVertex.

Module SetVertexProperty.
Record t := mk {
  id : OpId.t;
  target_id : VertexId;
  key : string;
  value : VertexPropertyType.t;
  transient : bool }.
End SetVertexProperty.

Module ModifyVertexProperty.
Record t := mk {
  id : OpId.t;
  target_id : VertexId;
  key : string;
  update : list Byte.byte }.
End ModifyVertexProperty.

Inductive VertexOperation :=
| Move (op : MoveVertex.t)
| SetProperty (op : SetVertexProperty.t)
| ModifyProperty (op : ModifyVertexProperty.t).

Module EncodedVertex.
Record t := mk {
  id : VertexId;
  parent_id : option VertexId;
  idx : Z;
  properties : list (string * VertexPropertyType.t) }.
End EncodedVertex.

Module Range.
(** [end] is a keyword of Rocq: the field is [end_]. *)
Record t := mk { peer_id : string; start : N; end_ : N }.
End Range.

(* ------------------------------------------------------------------ *)
(** ** HashMap as an association list *)

Section AssocMap.
Context {V : Type}.

Fixpoint map_get (m : list (string * V)) (k : string) : option V :=
  match m with
  | [] => None
  | (k', v) :: m' => if String.eqb k k' then Some v else map_get m' k
  end.

(** [insert]: overwrite the entry in place, or add a new one. *)
Fixpoint map_insert (m : list (string * V)) (k : string) (v : V)
  : list (string * V) :=
  match m with
  | [] => [(k, v)]
  | (k', v') :: m' =>
      if String.eqb k k' then (k', v) :: m' else (k', v') :: map_insert m' k v
  end.
End AssocMap.

(* ------------------------------------------------------------------ *)
(** ** crdt/state_vector.rs *)

Definition StateVector := list (string * list Range.t).

Definition StateVector_new : StateVector := [].

Definition from_ranges (ranges : list (string * list Range.t)) : StateVector :=
  ranges.

(** The [for range in ranges.iter_mut()] loop of [add]: the first range the
    counter extends at its end, extends at its start, or lies in, and
    [None] when the loop ends without [extended]. *)
Fixpoint add_extend (counter : N) (ranges : list Range.t)
  : option (list Range.t) :=
  match ranges with
  | [] => None
  | range :: rest =>
      if wrapping_add_u64 (Range.end_ range) 1 =? counter then
        Some (Range.mk (Range.peer_id range) (Range.start range) counter :: rest)
      else if wrapping_add_u64 counter 1 =? Range.start range then
        Some (Range.mk (Range.peer_id range) counter (Range.end_ range) :: rest)
      else if (Range.start range <=? counter) && (counter <=? Range.end_ range)
      then Some (range :: rest)
      else option_map (cons range) (add_extend counter rest)
  end.

(** [ranges.sort_by_key(|r| r.start)]: a stable sort. *)
Fixpoint insert_by_start (r : Range.t) (rs : list Range.t) : list Range.t :=
  match rs with
  | [] => [r]
  | r' :: rs' =>
      if Range.start r <=? Range.start r' then r :: r' :: rs'
      else r' :: insert_by_start r rs'
  end.

Fixpoint sort_by_start (rs : list Range.t) : list Range.t :=
  match rs with
  | [] => []
  | r :: rs' => insert_by_start r (sort_by_start rs')
  end.

(** The [while i < ranges.len() - 1] loop of [normalize_ranges]: [current] is
    [ranges[i]]; a merge replaces it and removes [ranges[i + 1]] without
    advancing [i]; otherwise [i] advances and the prefix is final. *)
Fixpoint merge_from (peer_id : string) (current : Range.t) (rest : list Range.t)
  : list Range.t :=
  match rest with
  | [] => [current]
  | next :: rest' =>
      if Range.start next <=? wrapping_add_u64 (Range.end_ current) 1 then
        merge_from peer_id
          (Range.mk peer_id (Range.start current)
             (N.max (Range.end_ current) (Range.end_ next))) rest'
      else current :: merge_from peer_id next rest'
  end.

Definition merge_ranges (peer_id : string) (rs : list Range.t) : list Range.t :=
  match rs with
  | [] => []
  | r :: rs' => merge_from peer_id r rs'
  end.

Definition normalize_ranges (sv : StateVector) (peer_id : string) : StateVector :=
  match map_get sv peer_id with
  | Some ranges => map_insert sv peer_id (merge_ranges peer_id (sort_by_start ranges))
  | None => sv
  end.

Definition add (sv : StateVector) (peer_id : string) (counter : N) : StateVector :=
  let ranges := match map_get sv peer_id with Some rs => rs | None => [] end in
  let ranges' :=
    match add_extend counter ranges with
    | Some rs => rs
    | None => ranges ++ [Range.mk peer_id counter counter]
    end in
  normalize_ranges (map_insert sv peer_id ranges') peer_id.

Definition add_all (sv : StateVector) (peer : string) (counters : list N) : StateVector :=
  fold_left (fun acc c => add acc peer c) counters sv.

Definition get_ranges (sv : StateVector) : list (string * list Range.t) := sv.

(** One step of the inner loop of [diff]: [range] minus [their_range]. *)
Definition diff_step (peer_id : string) (their_range range : Range.t)
  : list Range.t :=
  if Range.end_ range <? Range.start their_range then [range]
  else if Range.end_ their_range <? Range.start range then [range]
  else
    (if Range.start range <? Range.start their_range
     then [Range.mk peer_id (Range.start range) (Range.start their_range - 1)]
     else [])
    ++
    (* cannot wrap: [their_range.end < range.end] here *)
    (if Range.end_ their_range <? Range.end_ range
     then [Range.mk peer_id (Range.end_ their_range + 1) (Range.end_ range)]
     else []).

Definition diff_range (peer_id : string) (their_ranges : list Range.t)
  (our_range : Range.t) : list Range.t :=
  fold_left (fun remaining their_range => flat_map (diff_step peer_id their_range) remaining)
    their_ranges [our_range].

Definition diff (self other : StateVector) : list Range.t :=
  flat_map (fun '(peer_id, our_ranges) =>
      let their_ranges := match map_get other peer_id with Some rs => rs | None => [] end in
      flat_map (diff_range peer_id their_ranges) our_ranges)
    self.

(* ------------------------------------------------------------------ *)
(** ** storage/sqlite.rs: the three tables *)

Record Storage := mkStorage {
  (** [rt_vertices], rows in rowid order *)
  vertices : list EncodedVertex.t;
  (** [rt_move_ops], row [i] has [seq = i + 1] *)
  move_log : list MoveVertex.t;
  (** [rt_prop_ops], row [i] has [seq = i + 1] *)
  prop_log : list SetVertexProperty.t }.

(** [StorageConfig::Memory]: a fresh [:memory:] database. *)
Definition Storage_memory : Storage := mkStorage [] [] [].

(** [SELECT ... FROM rt_vertices WHERE id = ?] *)
Fixpoint storage_get_vertex (rows : list EncodedVertex.t) (id : string)
  : option EncodedVertex.t :=
  match rows with
  | [] => None
  | v :: rows' =>
      if String.eqb (EncodedVertex.id v) id then Some v else storage_get_vertex rows' id
  end.

(** [INSERT OR REPLACE INTO rt_vertices ...]: the conflicting row is deleted
    and the new row gets the next rowid. *)
Definition storage_put_vertex (rows : list EncodedVertex.t) (vertex : EncodedVertex.t)
  : list EncodedVertex.t :=
  filter (fun v => negb (String.eqb (EncodedVertex.id v) (EncodedVertex.id vertex))) rows
  ++ [vertex].

(** [ORDER BY idx]: stable on the rowid order, the order in which SQLite walks
    the [(parent_id, idx)] index for equal keys. *)
Fixpoint insert_by_idx (v : EncodedVertex.t) (vs : list EncodedVertex.t)
  : list EncodedVertex.t :=
  match vs with
  | [] => [v]
  | v' :: vs' =>
      if (EncodedVertex.idx v <=? EncodedVertex.idx v')%Z then v :: v' :: vs'
      else v' :: insert_by_idx v vs'
  end.

Fixpoint sort_by_idx (vs : list EncodedVertex.t) : list EncodedVertex.t :=
  match vs with
  | [] => []
  | v :: vs' => insert_by_idx v (sort_by_idx vs')
  end.

Definition parent_is (parent_id : string) (v : EncodedVertex.t) : bool :=
  match EncodedVertex.parent_id v with
  | Some p => String.eqb p parent_id
  | None => false
  end.

(** [get_children_page]: [WHERE parent_id = ? (AND idx > ?) ORDER BY idx LIMIT ?] *)
Definition get_children_page (rows : list EncodedVertex.t) (parent_id : string)
  (after_idx : option Z) (limit : nat) : list (VertexId * Z) :=
  let selected :=
    filter (fun v => parent_is parent_id v &&
                     match after_idx with
                     | Some after => (after <? EncodedVertex.idx v)%Z
                     | None => true
                     end) rows in
  map (fun v => (EncodedVertex.id v, EncodedVertex.idx v))
    (firstn limit (sort_by_idx selected)).

(** [SELECT ... FROM rt_move_ops WHERE peer_id = ? AND seq >= ? AND seq <= ?
    ORDER BY seq] (the options [get_missing_ops] passes), with [seq] the
    1-based position of the row. *)
Fixpoint select_by_seq {A : Type} (peer_of : A -> string) (seq : N)
  (peer_id : string) (from_seq to_seq : N) (rows : list A) : list A :=
  match rows with
  | [] => []
  | r :: rows' =>
      (if String.eqb (peer_of r) peer_id && (from_seq <=? seq) && (seq <=? to_seq)
       then [r] else [])
      ++ select_by_seq peer_of (seq + 1) peer_id from_seq to_seq rows'
  end.

(** The [stream::unfold] of [scan_range]: every step runs the same query
    again ([offset] is never used in it) and ends the stream only when the
    query returns no row.  [None]: the fuel ran out before the stream ended. *)
Fixpoint scan_stream {A : Type} (fuel : nat) (query_rows : list A) : option (list A) :=
  match fuel with
  | O => None
  | S fuel' =>
      match query_rows with
      | [] => Some []
      | _ :: _ => option_map (app query_rows) (scan_stream fuel' query_rows)
      end
  end.

Definition move_log_scan_range (fuel : nat) (log : list MoveVertex.t)
  (peer_id : string) (from_seq to_seq : N) : option (list MoveVertex.t) :=
  scan_stream fuel
    (select_by_seq (fun op => OpId.peer_id (MoveVertex.id op)) 1 peer_id from_seq to_seq log).

Definition prop_log_scan_range (fuel : nat) (log : list SetVertexProperty.t)
  (peer_id : string) (from_seq to_seq : N) : option (list SetVertexProperty.t) :=
  scan_stream fuel
    (select_by_seq (fun op => OpId.peer_id (SetVertexProperty.id op)) 1 peer_id from_seq to_seq log).

(* ------------------------------------------------------------------ *)
(** ** The vertex cache: [lru::LruCache], most recently used first *)

Definition LruCache := list (VertexId * EncodedVertex.t).

Fixpoint lru_peek (c : LruCache) (k : VertexId) : option EncodedVertex.t :=
  match c with
  | [] => None
  | (k', v) :: c' => if String.eqb k' k then Some v else lru_peek c' k
  end.

Definition lru_remove (c : LruCache) (k : VertexId) : LruCache :=
  filter (fun e => negb (String.eqb (fst e) k)) c.

(** [cache.get(k)]: a hit becomes the most recently used entry. *)
Definition lru_get (c : LruCache) (k : VertexId) : option EncodedVertex.t * LruCache :=
  match lru_peek c k with
  | Some v => (Some v, (k, v) :: lru_remove c k)
  | None => (None, c)
  end.

(** [cache.put(k, v)]: at capacity the least recently used entry goes. *)
Definition lru_put (cap : N) (c : LruCache) (k : VertexId) (v : EncodedVertex.t)
  : LruCache :=
  let c' := (k, v) :: lru_remove c k in
  if N.of_nat (length c') <=? cap then c' else firstn (N.to_nat cap) c'.

(* ------------------------------------------------------------------ *)
(** ** crdt/mod.rs: the replica *)

Record RepTree := mkRepTree {
  peer_id : string;
  lamport_clock : N;
  storage : Storage;
  vertex_cache : LruCache;
  state_vector : StateVector;
  default_cache_size : N }.

(** [RepTree::new] over an opened storage (a fresh one for [Memory], the
    persisted tables for a reopened path). *)
Definition RepTree_new (peer_id : string) (storage : Storage) : RepTree :=
  mkRepTree peer_id 0 storage [] StateVector_new 50000.

Definition is_some {A : Type} (o : option A) : bool :=
  match o with Some _ => true | None => false end.

Definition with_lamport (l : N) (s : RepTree) : RepTree :=
  mkRepTree (peer_id s) l (storage s) (vertex_cache s) (state_vector s) (default_cache_size s).
Definition with_storage (st : Storage) (s : RepTree) : RepTree :=
  mkRepTree (peer_id s) (lamport_clock s) st (vertex_cache s) (state_vector s) (default_cache_size s).
Definition with_cache (c : LruCache) (s : RepTree) : RepTree :=
  mkRepTree (peer_id s) (lamport_clock s) (storage s) c (state_vector s) (default_cache_size s).
Definition with_state_vector (sv : StateVector) (s : RepTree) : RepTree :=
  mkRepTree (peer_id s) (lamport_clock s) (storage s) (vertex_cache s) sv (default_cache_size s).

(** Methods on [&mut self] returning [Result<A>]: the state reached when an
    error is raised is kept, as with [?] in the source. *)
Definition M (A : Type) := RepTree -> result A * RepTree.

Definition ret {A : Type} (a : A) : M A := fun s => (Ok a, s).
Definition throw {A : Type} (e : Error.t) : M A := fun s => (Err e, s).
Definition bind {A B : Type} (m : M A) (k : A -> M B) : M B :=
  fun s => match m s with
           | (Ok a, s') => k a s'
           | (Err e, s') => (Err e, s')
           end.
Definition modify (f : RepTree -> RepTree) : M unit := fun s => (Ok tt, f s).
Definition gets {A : Type} (f : RepTree -> A) : M A := fun s => (Ok (f s), s).

Notation "x <- m ;; k" := (bind m (fun x => k))
  (at level 61, m at next level, right associativity).
Notation "m ;; k" := (bind m (fun _ => k)) (at level 61, right associativity).

Definition update_lamport_clock (timestamp : N) : M unit :=
  modify (fun s => with_lamport (wrapping_add_u64 (N.max (lamport_clock s) timestamp) 1) s).

Definition new_op_id : M OpId.t :=
  fun s => (Ok (OpId.new (peer_id s) (lamport_clock s)),
            with_lamport (wrapping_add_u64 (lamport_clock s) 1) s).

Definition put_vertex (vertex : EncodedVertex.t) : M unit :=
  modify (fun s =>
    let st := storage s in
    with_storage (mkStorage (storage_put_vertex (vertices st) vertex)
                            (move_log st) (prop_log st)) s).

Definition cache_put (k : VertexId) (v : EncodedVertex.t) : M unit :=
  modify (fun s => with_cache (lru_put (default_cache_size s) (vertex_cache s) k v) s).

Definition move_log_append (op : MoveVertex.t) : M unit :=
  modify (fun s =>
    let st := storage s in
    with_storage (mkStorage (vertices st) (move_log st ++ [op]) (prop_log st)) s).

Definition prop_log_append (op : SetVertexProperty.t) : M unit :=
  modify (fun s =>
    let st := storage s in
    with_storage (mkStorage (vertices st) (move_log st) (prop_log st ++ [op])) s).

Definition state_vector_add (peer : string) (counter : N) : M unit :=
  modify (fun s => with_state_vector (add (state_vector s) peer counter) s).

Definition vertices_children_page (parent_id : string) (after_idx : option Z)
  (limit : nat) : M (list (VertexId * Z)) :=
  gets (fun s => get_children_page (vertices (storage s)) parent_id after_idx limit).

(** [get_vertex]: the cache first, then the store, caching what it finds. *)
Definition get_vertex (id : VertexId) : M (option EncodedVertex.t) :=
  fun s =>
    match lru_get (vertex_cache s) id with
    | (Some v, cache') => (Ok (Some v), with_cache cache' s)
    | (None, _) =>
        match storage_get_vertex (vertices (storage s)) id with
        | Some v => (Ok (Some v), with_cache (lru_put (default_cache_size s) (vertex_cache s) id v) s)
        | None => (Ok None, s)
        end
    end.

Definition apply_move (op : MoveVertex.t) : M unit :=
  target <- get_vertex (MoveVertex.target_id op) ;;
  let target_exists := is_some target in
  match MoveVertex.parent_id op with
  | Some parent_id =>
      parent <- get_vertex parent_id ;;
      if is_some parent then ret tt else throw (Error.VertexNotFound parent_id)
  | None => ret tt
  end ;;
  if negb target_exists then
    let vertex := EncodedVertex.mk (MoveVertex.target_id op) (MoveVertex.parent_id op) 0 [] in
    put_vertex vertex ;;
    cache_put (MoveVertex.target_id op) vertex
  else
    found <- get_vertex (MoveVertex.target_id op) ;;
    match found with
    | None => throw (Error.VertexNotFound (MoveVertex.target_id op))
    | Some vertex =>
        siblings <- match MoveVertex.parent_id op with
                    | Some parent_id => vertices_children_page parent_id None 1000
                    | None => ret []
                    end ;;
        let max_idx := match map snd siblings with
                       | [] => 0%Z
                       | i :: is => fold_left Z.max is i
                       end in
        let vertex' := EncodedVertex.mk (EncodedVertex.id vertex) (MoveVertex.parent_id op)
                         (wrapping_add_i64 max_idx 1) (EncodedVertex.properties vertex) in
        put_vertex vertex' ;;
        cache_put (MoveVertex.target_id op) vertex'
    end.

Definition apply_property (op : SetVertexProperty.t) : M unit :=
  found <- get_vertex (SetVertexProperty.target_id op) ;;
  match found with
  | None => throw (Error.VertexNotFound (SetVertexProperty.target_id op))
  | Some vertex =>
      if SetVertexProperty.transient op then ret tt
      else
        let vertex' := EncodedVertex.mk (EncodedVertex.id vertex) (EncodedVertex.parent_id vertex)
                         (EncodedVertex.idx vertex)
                         (map_insert (EncodedVertex.properties vertex)
                            (SetVertexProperty.key op) (SetVertexProperty.value op)) in
        put_vertex vertex' ;;
        cache_put (SetVertexProperty.target_id op) vertex'
  end.

(** [ModifyProperty] is projected to a non-transient [SetProperty]. *)
Definition modify_as_set (op : ModifyVertexProperty.t) : SetVertexProperty.t :=
  SetVertexProperty.mk (ModifyVertexProperty.id op) (ModifyVertexProperty.target_id op)
    (ModifyVertexProperty.key op) (VertexPropertyType.YDoc (ModifyVertexProperty.update op))
    false.

Definition apply_op (op : VertexOperation) : M OpId.t :=
  match op with
  | Move move_op =>
      update_lamport_clock (MoveVertex.timestamp move_op) ;;
      apply_move move_op ;;
      move_log_append move_op ;;
      state_vector_add (OpId.peer_id (MoveVertex.id move_op)) (OpId.counter (MoveVertex.id move_op)) ;;
      ret (MoveVertex.id move_op)
  | SetProperty prop_op =>
      apply_property prop_op ;;
      prop_log_append prop_op ;;
      state_vector_add (OpId.peer_id (SetVertexProperty.id prop_op))
        (OpId.counter (SetVertexProperty.id prop_op)) ;;
      ret (SetVertexProperty.id prop_op)
  | ModifyProperty modify_op =>
      let prop_op := modify_as_set modify_op in
      apply_property prop_op ;;
      prop_log_append prop_op ;;
      state_vector_add (OpId.peer_id (SetVertexProperty.id prop_op))
        (OpId.counter (SetVertexProperty.id prop_op)) ;;
      ret (SetVertexProperty.id prop_op)
  end.

Fixpoint apply_ops (ops : list VertexOperation) : M (list OpId.t) :=
  match ops with
  | [] => ret []
  | op :: ops' =>
      id <- apply_op op ;;
      ids <- apply_ops ops' ;;
      ret (id :: ids)
  end.

(** The hydration loop of [get_children]. *)
Fixpoint hydrate (children_refs : list (VertexId * Z)) : M (list EncodedVertex.t) :=
  match children_refs with
  | [] => ret []
  | (id, _) :: refs =>
      found <- get_vertex id ;;
      rest <- hydrate refs ;;
      ret (match found with Some v => v :: rest | None => rest end)
  end.

Definition get_children (parent_id : string) : M (list EncodedVertex.t) :=
  children_refs <- vertices_children_page parent_id None 1000 ;;
  children <- hydrate children_refs ;;
  ret (sort_by_idx children).

Definition get_state_vector (s : RepTree) : list (string * list Range.t) :=
  get_ranges (state_vector s).

Definition op_id (op : VertexOperation) : OpId.t :=
  match op with
  | Move o => MoveVertex.id o
  | SetProperty o => SetVertexProperty.id o
  | ModifyProperty o => ModifyVertexProperty.id o
  end.

(** [missing_ops.sort_by(OpId::compare)]: a stable sort. *)
Fixpoint insert_by_op_id (x : VertexOperation) (ys : list VertexOperation)
  : list VertexOperation :=
  match ys with
  | [] => [x]
  | y :: ys' =>
      match OpId.compare (op_id x) (op_id y) with
      | Gt => y :: insert_by_op_id x ys'
      | _ => x :: y :: ys'
      end
  end.

Fixpoint sort_by_op_id (xs : list VertexOperation) : list VertexOperation :=
  match xs with
  | [] => []
  | x :: xs' => insert_by_op_id x (sort_by_op_id xs')
  end.

(** [get_missing_ops] (it always returns [Ok]); [None] when a scan stream
    does not end within [fuel] steps. *)
Definition get_missing_ops (fuel : nat) (self : RepTree)
  (their_state : list (string * list Range.t)) : option (list VertexOperation) :=
  let missing_ranges := diff (state_vector self) (from_ranges their_state) in
  let log := storage self in
  let collected :=
    fold_left (fun acc range =>
        match acc with
        | None => None
        | Some missing_ops =>
            match move_log_scan_range fuel (move_log log) (Range.peer_id range)
                    (Range.start range) (Range.end_ range),
                  prop_log_scan_range fuel (prop_log log) (Range.peer_id range)
                    (Range.start range) (Range.end_ range) with
            | Some moves, Some props =>
                Some (missing_ops ++ map Move moves ++ map SetProperty props)
            | _, _ => None
            end
        end) missing_ranges (Some []) in
  option_map sort_by_op_id collected.

(* ------------------------------------------------------------------ *)
(** ** Scenarios of the spec (section 8) *)

Definition fresh_replica : RepTree := RepTree_new "p1"%string Storage_memory.

Definition op_root : VertexOperation :=
  Move (MoveVertex.mk (OpId.new "p1" 1) "root" None 1000).
Definition op_name : VertexOperation :=
  SetProperty (SetVertexProperty.mk (OpId.new "p1" 2) "root" "name"
                 (VertexPropertyType.String "Root") false).
Definition op_c1 : VertexOperation :=
  Move (MoveVertex.mk (OpId.new "p1" 3) "c1" (Some "root"%string) 2000).
Definition op_c2 : VertexOperation :=
  Move (MoveVertex.mk (OpId.new "p1" 4) "c2" (Some "root"%string) 2001).

(** S2: S1 followed by two children of "root". *)
Definition scenario_S2 : list VertexOperation := [op_root; op_name; op_c1; op_c2].

Definition replica_after (ops : list VertexOperation) (s : RepTree) : RepTree :=
  snd (apply_ops ops s).

Definition root_replica : RepTree := replica_after [op_root] fresh_replica.
Definition root_vertex : EncodedVertex.t := EncodedVertex.mk "root" None 0 [].

(** A transient property signal on "root". *)
Definition transient_cursor : SetVertexProperty.t :=
  SetVertexProperty.mk (OpId.new "p1" 2) "root" "cursor" (VertexPropertyType.Integer 7) true.

(** S4: a move under a parent that does not exist. *)
Definition move_x_under_nope : MoveVertex.t :=
  MoveVertex.mk (OpId.new "p1" 1) "x" (Some "nope"%string) 1.

(** A replica reopened on a database that already holds vertex "x": the
    store has it, the fresh cache does not. *)
Definition reopened_replica : RepTree :=
  RepTree_new "p2"%string (mkStorage [EncodedVertex.mk "x" None 0 []] [] []).

(** S5: [p1] has applied counters {1,2,3,5} of [p1] and {10,11} of [p2];
    [p2] knows {1,2} of [p1] and {10,11} of [p2]. *)
Definition S5_mine : StateVector :=
  add_all (add_all StateVector_new "p1" [1; 2; 3; 5]) "p2" [10; 11].
Definition S5_theirs : StateVector :=
  add_all (add_all StateVector_new "p1" [1; 2]) "p2" [10; 11].

(** A fresh replica of [p1] whose first operation carries counter 5 (its
    lamport clock was behind that of the op's origin, or the op came from a
    peer that had already issued counters 1 to 4): the op is row 1 of the
    move log. *)
Definition op_root_5 : VertexOperation :=
  Move (MoveVertex.mk (OpId.new "p1" 5) "root" None 1000).
Definition counter5_replica : RepTree := replica_after [op_root_5] fresh_replica.

(** The children of [parent_id], as (id, idx) pairs, when [get_children]
    succeeds. *)
Definition children_idx (parent_id : string) (s : RepTree) : list (VertexId * Z) :=
  match fst (get_children parent_id s) with
  | Ok l => map (fun v => (EncodedVertex.id v, EncodedVertex.idx v)) l
  | Err _ => []
  end.

(* ------------------------------------------------------------------ *)
(** ** Predicates used by the statements *)

Definition is_property_op (op : VertexOperation) : bool :=
  match op with
  | Move _ => false
  | SetProperty _ | ModifyProperty _ => true
  end.

Definition range_has (c : N) (r : Range.t) : bool :=
  (Range.start r <=? c) && (c <=? Range.end_ r).

(** The state vector covers [(p, c)]. *)
Definition covers (sv : StateVector) (p : string) (c : N) : bool :=
  match map_get sv p with
  | Some rs => existsb (range_has c) rs
  | None => false
  end.

(** A list of ranges, as [diff] returns it, contains counter [c] of [p]. *)
Definition contains (rs : list Range.t) (p : string) (c : N) : bool :=
  existsb (fun r => String.eqb (Range.peer_id r) p && range_has c r) rs.

(** Every range stored under a peer carries that peer's id. *)
Definition labelled (sv : StateVector) : bool :=
  forallb (fun '(p, rs) => forallb (fun r => String.eqb (Range.peer_id r) p) rs) sv.

Fixpoint distinct_keys {V : Type} (m : list (string * V)) : bool :=
  match m with
  | [] => true
  | (k, _) :: m' => negb (existsb (fun e => String.eqb (fst e) k) m') && distinct_keys m'
  end.

(** Sorted by start, every range non-empty, consecutive ranges separated:
    [r_i.end + 1 < r_{i+1}.start]. *)
Fixpoint normal_form (rs : list Range.t) : bool :=
  match rs with
  | [] => true
  | r :: rest =>
      (Range.start r <=? Range.end_ r) &&
      match rest with
      | [] => true
      | r' :: _ => Range.end_ r + 1 <? Range.start r'
      end && normal_form rest
  end.

(** The consecutive-pair condition alone, as the claims state it. *)
Fixpoint separated (rs : list Range.t) : bool :=
  match rs with
  | [] => true
  | r :: rest =>
      match rest with
      | [] => true
      | r' :: _ => (Range.start r <=? Range.start r') && (Range.end_ r + 1 <? Range.start r')
      end && separated rest
  end.

Fixpoint strictly_ascending_idx (vs : list EncodedVertex.t) : bool :=
  match vs with
  | [] => true
  | v :: rest =>
      match rest with
      | [] => true
      | v' :: _ => (EncodedVertex.idx v <? EncodedVertex.idx v')%Z
      end && strictly_ascending_idx rest
  end.

(** A range as [add] builds it from counters below [u64::MAX]. *)
Definition range_ok (r : Range.t) : bool :=
  (Range.start r <=? Range.end_ r) && (Range.end_ r <? U64_MAX).

(** Sorted by start: every range starts no later than all ranges after it. *)
Fixpoint sorted_start (rs : list Range.t) : bool :=
  match rs with
  | [] => true
  | r :: rest => forallb (fun x => Range.start r <=? Range.start x) rest && sorted_start rest
  end.

(** Every peer's ranges are in normal form and made of [range_ok] ranges. *)
Definition sv_invariant (sv : StateVector) : Prop :=
  forall q rs, map_get sv q = Some rs -> normal_form rs = true /\ forallb range_ok rs = true.

(** A sequence of [add(peer_id, counter)] calls. *)
Definition add_calls (sv : StateVector) (calls : list (string * N)) : StateVector :=
  fold_left (fun acc '(p, c) => add acc p c) calls sv.

(* ------------------------------------------------------------------ *)
(** ** crdt/mod.rs: the local API *)

(** [create_vertex]: [id] is the string of [Uuid::new_v4()]. *)
Definition create_vertex (id : VertexId) (parent_id : option VertexId) : M VertexId :=
  op_id <- new_op_id ;;
  timestamp <- gets lamport_clock ;;
  apply_op (Move (MoveVertex.mk op_id id parent_id timestamp)) ;;
  ret id.

Definition set_property (vertex_id : VertexId) (key : string) (value : VertexPropertyType.t)
  : M OpId.t :=
  op_id <- new_op_id ;;
  apply_op (SetProperty (SetVertexProperty.mk op_id vertex_id key value false)) ;;
  ret op_id.

Definition move_vertex (vertex_id : VertexId) (parent_id : option VertexId) : M OpId.t :=
  op_id <- new_op_id ;;
  timestamp <- gets lamport_clock ;;
  apply_op (Move (MoveVertex.mk op_id vertex_id parent_id timestamp)) ;;
  ret op_id.

(** Every cached entry is the store's row for its key. *)
Definition cache_coherent (s : RepTree) : Prop :=
  forall k v, lru_peek (vertex_cache s) k = Some v ->
  storage_get_vertex (vertices (storage s)) k = Some v.

(** The replicas a program can reach: [RepTree::new] over any opened
    storage, then any sequence of the public calls. *)
Inductive reachable : RepTree -> Prop :=
| reachable_new p st : reachable (RepTree_new p st)
| reachable_apply_op op s : reachable s -> reachable (snd (apply_op op s))
| reachable_apply_ops ops s : reachable s -> reachable (snd (apply_ops ops s))
| reachable_get_vertex id s : reachable s -> reachable (snd (get_vertex id s))
| reachable_get_children p s : reachable s -> reachable (snd (get_children p s))
| reachable_create_vertex id parent s :
    reachable s -> reachable (snd (create_vertex id parent s))
| reachable_set_property id key value s :
    reachable s -> reachable (snd (set_property id key value s))
| reachable_move_vertex id parent s :
    reachable s -> reachable (snd (move_vertex id parent s)).

(** Consecutive elements are never in [Gt] order for [OpId::compare]. *)
Fixpoint sorted_by_op_id (ops : list VertexOperation) : bool :=
  match ops with
  | [] => true
  | o :: rest =>
      match rest with
      | [] => true
      | o' :: _ => match OpId.compare (op_id o) (op_id o') with Gt => false | _ => true end
      end && sorted_by_op_id rest
  end.

(* ------------------------------------------------------------------ *)
(** ** crdt/tree_state.rs *)

(** [i64::MAX]. *)
Definition I64_MAX : Z := (2 ^ 63 - 1)%Z.

Module TreeState.

(** [vertices] is a [HashMap] (an association list, its iteration order the
    list order) and [dirty] a [HashSet] (a list without duplicates). *)
Record t := mk {
  vertices : list (VertexId * EncodedVertex.t);
  dirty : list VertexId }.

Definition new : t := mk [] [].

Definition get_vertex (ts : t) (id : string) : option EncodedVertex.t :=
  map_get (vertices ts) id.

Definition get_all_vertices (ts : t) : list EncodedVertex.t :=
  map snd (vertices ts).

(** [filter(|v| v.parent_id.as_deref() == Some(parent_id))] *)
Definition get_children (ts : t) (parent_id : string) : list EncodedVertex.t :=
  filter (parent_is parent_id) (map snd (vertices ts)).

(** [HashSet::insert] *)
Definition set_insert (s : list VertexId) (x : VertexId) : list VertexId :=
  if existsb (String.eqb x) s then s else s ++ [x].

Definition apply_move (ts : t) (op : MoveVertex.t) : t :=
  let new_idx :=
    match MoveVertex.parent_id op with
    | Some parent_id =>
        let max_idx :=
          match map EncodedVertex.idx
                  (filter (parent_is parent_id) (map snd (vertices ts))) with
          | [] => 0%Z
          | i :: is => fold_left Z.max is i
          end in
        wrapping_add_i64 max_idx 1
    | None => 0%Z
    end in
  let vertices' :=
    match map_get (vertices ts) (MoveVertex.target_id op) with
    | Some vertex =>
        map_insert (vertices ts) (MoveVertex.target_id op)
          (EncodedVertex.mk (EncodedVertex.id vertex) (MoveVertex.parent_id op) new_idx
             (EncodedVertex.properties vertex))
    | None =>
        map_insert (vertices ts) (MoveVertex.target_id op)
          (EncodedVertex.mk (MoveVertex.target_id op) (MoveVertex.parent_id op) new_idx [])
    end in
  mk vertices' (set_insert (dirty ts) (MoveVertex.target_id op)).

Definition apply_moves (ts : t) (ops : list MoveVertex.t) : t :=
  fold_left apply_move ops ts.

Definition set_property (ts : t) (vertex_id key : string) (value : VertexPropertyType.t)
  : bool * t :=
  match map_get (vertices ts) vertex_id with
  | Some vertex =>
      (true,
       mk (map_insert (vertices ts) vertex_id
             (EncodedVertex.mk (EncodedVertex.id vertex) (EncodedVertex.parent_id vertex)
                (EncodedVertex.idx vertex)
                (map_insert (EncodedVertex.properties vertex) key value)))
          (set_insert (dirty ts) vertex_id))
  | None => (false, ts)
  end.

(** [dirty()]: [filter_map] over the dirty set. *)
Definition dirty_vertices (ts : t) : list EncodedVertex.t :=
  flat_map (fun id => match map_get (vertices ts) id with Some v => [v] | None => [] end)
    (dirty ts).

Definition clear_dirty (ts : t) : t := mk (vertices ts) [].

Definition len (ts : t) : nat := length (vertices ts).

Definition is_empty (ts : t) : bool :=
  match vertices ts with [] => true | _ => false end.

(** Every dirty id is a key of [vertices]. *)
Definition dirty_ok (ts : t) : Prop :=
  forall id, In id (dirty ts) -> map_get (vertices ts) id <> None.

End TreeState.

Definition tree_state_ab : TreeState.t :=
  TreeState.apply_moves TreeState.new
    [MoveVertex.mk (OpId.new "p" 1) "a" (Some "r"%string) 1;
     MoveVertex.mk (OpId.new "p" 2) "b" (Some "r"%string) 2].

(** The states a [TreeState] goes through from [new]. *)
Inductive tree_state_reachable : TreeState.t -> Prop :=
| ts_reachable_new : tree_state_reachable TreeState.new
| ts_reachable_apply_move ts op :
    tree_state_reachable ts -> tree_state_reachable (TreeState.apply_move ts op)
| ts_reachable_set_property ts vid key value :
    tree_state_reachable ts -> tree_state_reachable (snd (TreeState.set_property ts vid key value))
| ts_reachable_clear_dirty ts :
    tree_state_reachable ts -> tree_state_reachable (TreeState.clear_dirty ts).

(** [y] lies inside [x] and is not empty. *)
Definition range_within (x y : Range.t) : Prop :=
  Range.start x <= Range.start y /\ Range.start y <= Range.end_ y /\ Range.end_ y <= Range.end_ x.

Definition ranges_nonempty (sv : StateVector) : bool :=
  forallb (fun '(_, rs) => forallb (fun r => Range.start r <=? Range.end_ r) rs) sv.

Definition lookup_refs (rows : list EncodedVertex.t) (refs : list (VertexId * Z))
  : list EncodedVertex.t :=
  flat_map (fun r : VertexId * Z =>
              match storage_get_vertex rows (fst r) with Some v => [v] | None => [] end) refs.

Definition idx_le (a b : EncodedVertex.t) : Prop := (EncodedVertex.idx a <= EncodedVertex.idx b)%Z.



(* ------------------------------------------------------------------ *)
(** ** Reasoning about [M] *)

Lemma bind_ok {A B : Type} (m : M A) (k : A -> M B) s a s' :
  m s = (Ok a, s') -> bind m k s = k a s'.
Proof. unfold bind; intros H; rewrite H; reflexivity. Qed.

Lemma bind_err {A B : Type} (m : M A) (k : A -> M B) s e s' :
  m s = (Err e, s') -> bind m k s = (Err e, s').
Proof. unfold bind; intros H; rewrite H; reflexivity. Qed.

(** Computations that leave the lamport clock alone. *)
Definition lamport_stable {A : Type} (m : M A) : Prop :=
  forall s, lamport_clock (snd (m s)) = lamport_clock s.

Create HintDb lamport.

Lemma ret_stable {A : Type} (a : A) : lamport_stable (ret a).
Proof. intros s; reflexivity. Qed.

Lemma throw_stable {A : Type} e : lamport_stable (@throw A e).
Proof. intros s; reflexivity. Qed.

Lemma bind_stable {A B : Type} (m : M A) (k : A -> M B) :
  lamport_stable m -> (forall a, lamport_stable (k a)) -> lamport_stable (bind m k).
Proof.
  intros Hm Hk s; unfold bind.
  specialize (Hm s); destruct (m s) as [[a|e] s'] eqn:E; simpl in *.
  - rewrite Hk; exact Hm.
  - exact Hm.
Qed.

Lemma get_vertex_stable id : lamport_stable (get_vertex id).
Proof.
  intros s; unfold get_vertex.
  destruct (lru_get _ _) as [[v|] c]; [reflexivity|].
  destruct (storage_get_vertex _ _); reflexivity.
Qed.

Lemma modify_stable f : (forall s, lamport_clock (f s) = lamport_clock s) -> lamport_stable (modify f).
Proof. intros H s; apply H. Qed.

Lemma gets_stable {A : Type} (f : RepTree -> A) : lamport_stable (gets f).
Proof. intros s; reflexivity. Qed.

Lemma put_vertex_stable v : lamport_stable (put_vertex v).
Proof. apply modify_stable; reflexivity. Qed.
Lemma cache_put_stable k v : lamport_stable (cache_put k v).
Proof. apply modify_stable; reflexivity. Qed.
Lemma move_log_append_stable op : lamport_stable (move_log_append op).
Proof. apply modify_stable; reflexivity. Qed.
Lemma prop_log_append_stable op : lamport_stable (prop_log_append op).
Proof. apply modify_stable; reflexivity. Qed.
Lemma state_vector_add_stable p c : lamport_stable (state_vector_add p c).
Proof. apply modify_stable; reflexivity. Qed.
Lemma vertices_children_page_stable p a l : lamport_stable (vertices_children_page p a l).
Proof. apply gets_stable. Qed.

#[local] Hint Resolve ret_stable throw_stable get_vertex_stable put_vertex_stable
  cache_put_stable move_log_append_stable prop_log_append_stable
  state_vector_add_stable vertices_children_page_stable : lamport.

Ltac stable :=
  repeat match goal with
         | |- lamport_stable (bind _ _) => apply bind_stable; [|intros]
         | |- lamport_stable (match ?x with _ => _ end) => destruct x
         | |- lamport_stable (if ?b then _ else _) => destruct b
         | |- lamport_stable _ => auto with lamport
         end.

Lemma apply_move_stable op : lamport_stable (apply_move op).
Proof. unfold apply_move; stable. Qed.

Lemma apply_property_stable op : lamport_stable (apply_property op).
Proof. unfold apply_property; stable. Qed.

#[local] Hint Resolve apply_move_stable apply_property_stable : lamport.

Lemma apply_property_op_stable op :
  is_property_op op = true -> lamport_stable (apply_op op).
Proof. destruct op; simpl; intros H; [discriminate| |]; stable. Qed.

Lemma apply_ops_stable ops :
  forallb is_property_op ops = true -> lamport_stable (apply_ops ops).
Proof.
  induction ops as [|op ops IH]; simpl; intros H; [apply ret_stable|].
  apply andb_prop in H as [H1 H2].
  apply bind_stable; [apply apply_property_op_stable; exact H1|intros].
  apply bind_stable; [apply IH; exact H2|intros; apply ret_stable].
Qed.

(** What a lookup does to the replica: at most the cache changes. *)
Lemma get_vertex_shape id s :
  exists o c, get_vertex id s = (Ok o, with_cache c s).
Proof.
  unfold get_vertex.
  destruct (lru_get _ _) as [[v|] c]; [eauto|].
  destruct (storage_get_vertex _ _); [eauto|].
  exists None, (vertex_cache s); destruct s; reflexivity.
Qed.

Lemma lru_peek_remove_none c k p :
  lru_peek c p = None -> lru_peek (lru_remove c k) p = None.
Proof.
  induction c as [|[k' v] c IH]; simpl; intros H; [auto|].
  destruct (String.eqb k' p) eqn:Ep; [discriminate|].
  destruct (String.eqb k' k); simpl; [auto|].
  rewrite Ep; auto.
Qed.

Lemma lru_peek_firstn_none n c p :
  lru_peek c p = None -> lru_peek (firstn n c) p = None.
Proof.
  revert c; induction n as [|n IH]; intros [|[k v] c]; simpl; intros H; auto.
  destruct (String.eqb k p); [discriminate|auto].
Qed.

Lemma lru_put_peek_other cap c k v p :
  k <> p -> lru_peek c p = None -> lru_peek (lru_put cap c k v) p = None.
Proof.
  intros Hne Hc; unfold lru_put.
  assert (H : lru_peek ((k, v) :: lru_remove c k) p = None).
  { simpl; apply String.eqb_neq in Hne; rewrite Hne; apply lru_peek_remove_none; exact Hc. }
  destruct (_ <=? _); [exact H|apply lru_peek_firstn_none; exact H].
Qed.

(** A lookup never brings an id absent from cache and store into the cache. *)
Lemma get_vertex_keeps_absent id p s :
  lru_peek (vertex_cache s) p = None ->
  storage_get_vertex (vertices (storage s)) p = None ->
  lru_peek (vertex_cache (snd (get_vertex id s))) p = None.
Proof.
  intros Hc Hs; unfold get_vertex, lru_get.
  destruct (lru_peek (vertex_cache s) id) as [v|] eqn:Hid.
  - simpl. destruct (String.eqb id p) eqn:E.
    + apply String.eqb_eq in E; subst; congruence.
    + apply lru_peek_remove_none; exact Hc.
  - destruct (storage_get_vertex (vertices (storage s)) id) as [v|] eqn:Hsid; simpl; [|exact Hc].
    apply lru_put_peek_other; [|exact Hc].
    intros ->; congruence.
Qed.

Lemma get_vertex_absent p s :
  lru_peek (vertex_cache s) p = None ->
  storage_get_vertex (vertices (storage s)) p = None ->
  get_vertex p s = (Ok None, s).
Proof.
  intros Hc Hs; unfold get_vertex, lru_get; rewrite Hc, Hs; reflexivity.
Qed.

(* ------------------------------------------------------------------ *)
(** ** Claims about [apply_op] *)

(** C9: every [Move] sets the lamport clock to [max(lamport, T) + 1] (in
    [u64]), whether it is then applied or rejected. *)
Theorem apply_move_updates_lamport (s : RepTree) (mv : MoveVertex.t) :
  lamport_clock (snd (apply_op (Move mv) s)) =
  wrapping_add_u64 (N.max (lamport_clock s) (MoveVertex.timestamp mv)) 1.
Proof.
  unfold apply_op.
  rewrite (bind_ok _ _ s tt
             (with_lamport (wrapping_add_u64 (N.max (lamport_clock s) (MoveVertex.timestamp mv)) 1) s))
    by reflexivity.
  match goal with |- lamport_clock (snd (?m ?s1)) = _ => assert (Hm : lamport_stable m) end.
  { stable. }
  rewrite Hm; reflexivity.
Qed.

(** C10: [SetProperty] and [ModifyProperty] never move the lamport clock, so
    after only such operations the next local [OpId] takes its counter from
    the clock as it was. *)
Theorem property_ops_keep_lamport (ops : list VertexOperation) (s : RepTree)
  (Hprops : forallb is_property_op ops = true) :
  Forall (fun op => lamport_clock (snd (apply_op op s)) = lamport_clock s) ops /\
  lamport_clock (snd (apply_ops ops s)) = lamport_clock s /\
  fst (new_op_id (snd (apply_ops ops s))) =
    Ok (OpId.new (peer_id (snd (apply_ops ops s))) (lamport_clock s)).
Proof.
  assert (Hall : lamport_clock (snd (apply_ops ops s)) = lamport_clock s)
    by (apply apply_ops_stable; exact Hprops).
  split; [|split; [exact Hall|]].
  - apply Forall_forall; intros op Hin.
    apply apply_property_op_stable.
    rewrite forallb_forall in Hprops; apply Hprops; exact Hin.
  - simpl; rewrite Hall; reflexivity.
Qed.

(** C1 (as the code does it): a transient [SetProperty] on an existing vertex
    succeeds and leaves the vertex store and the other logs alone; only the
    lookup of the target touches the cache; the op is still appended to
    PropLog and its [OpId] added to the state vector. *)
Theorem transient_set_property_effect (s : RepTree) (op : SetVertexProperty.t)
  (v : EncodedVertex.t)
  (Htransient : SetVertexProperty.transient op = true)
  (Hexists : fst (get_vertex (SetVertexProperty.target_id op) s) = Ok (Some v)) :
  let s1 := snd (get_vertex (SetVertexProperty.target_id op) s) in
  apply_op (SetProperty op) s =
    (Ok (SetVertexProperty.id op),
     with_state_vector
       (add (state_vector s) (OpId.peer_id (SetVertexProperty.id op))
          (OpId.counter (SetVertexProperty.id op)))
       (with_storage
          (mkStorage (vertices (storage s)) (move_log (storage s))
             (prop_log (storage s) ++ [op])) s1)) /\
  (exists c, s1 = with_cache c s).
Proof.
  intros s1.
  destruct (get_vertex_shape (SetVertexProperty.target_id op) s) as (o & c & E).
  assert (Hs1 : s1 = with_cache c s) by (unfold s1; rewrite E; reflexivity).
  rewrite E in Hexists; simpl in Hexists; injection Hexists as ->.
  split; [|exists c; exact Hs1].
  assert (Hap : apply_property op s = (Ok tt, with_cache c s)).
  { unfold apply_property; rewrite (bind_ok _ _ s (Some v) (with_cache c s) E).
    simpl; rewrite Htransient; reflexivity. }
  unfold apply_op; rewrite (bind_ok _ _ _ _ _ Hap), Hs1; reflexivity.
Qed.

(** C3 (as the code does it): a move whose parent is in neither cache nor
    store fails with [VertexNotFound(parent)] without touching the store, the
    logs or the state vector; the clock has been advanced and the lookup of
    the target may have cached it.  On a fresh replica the state vector and
    both logs stay empty. *)
Theorem move_missing_parent_rejected (s : RepTree) (mv : MoveVertex.t) (p : VertexId)
  (Hparent : MoveVertex.parent_id mv = Some p)
  (Hstore : storage_get_vertex (vertices (storage s)) p = None)
  (Hcache : lru_peek (vertex_cache s) p = None) :
  let s1 := with_lamport (wrapping_add_u64 (N.max (lamport_clock s) (MoveVertex.timestamp mv)) 1) s in
  let s2 := snd (get_vertex (MoveVertex.target_id mv) s1) in
  apply_op (Move mv) s = (Err (Error.VertexNotFound p), s2) /\
  storage s2 = storage s /\ state_vector s2 = state_vector s /\
  (forall peer, let r := apply_op (Move mv) (RepTree_new peer Storage_memory) in
     fst r = Err (Error.VertexNotFound p) /\ state_vector (snd r) = [] /\
     move_log (storage (snd r)) = [] /\ prop_log (storage (snd r)) = []).
Proof.
  assert (Hgen : forall s, storage_get_vertex (vertices (storage s)) p = None ->
            lru_peek (vertex_cache s) p = None ->
            let s1 := with_lamport (wrapping_add_u64 (N.max (lamport_clock s) (MoveVertex.timestamp mv)) 1) s in
            let s2 := snd (get_vertex (MoveVertex.target_id mv) s1) in
            apply_op (Move mv) s = (Err (Error.VertexNotFound p), s2) /\
            storage s2 = storage s /\ state_vector s2 = state_vector s).
  { clear s Hstore Hcache; intros s Hstore Hcache s1 s2.
    destruct (get_vertex_shape (MoveVertex.target_id mv) s1) as (o & c & E).
    assert (Hs2 : s2 = with_cache c s1) by (unfold s2; rewrite E; reflexivity).
    assert (Hp : get_vertex p s2 = (Ok None, s2)).
    { apply get_vertex_absent.
      - unfold s2; apply get_vertex_keeps_absent; assumption.
      - rewrite Hs2; exact Hstore. }
    assert (Hmove : apply_move mv s1 = (Err (Error.VertexNotFound p), s2)).
    { unfold apply_move.
      rewrite (bind_ok _ _ s1 o s2) by (rewrite E, Hs2; reflexivity).
      rewrite Hparent; apply bind_err.
      rewrite (bind_ok _ _ s2 None s2 Hp); reflexivity. }
    split; [|rewrite Hs2; split; reflexivity].
    unfold apply_op; rewrite (bind_ok _ _ s tt s1) by reflexivity.
    apply bind_err; exact Hmove. }
  intros s1 s2.
  destruct (Hgen s Hstore Hcache) as (H1 & H2 & H3).
  split; [exact H1|split; [exact H2|split; [exact H3|]]].
  intros peer r.
  destruct (Hgen (RepTree_new peer Storage_memory) eq_refl eq_refl) as (F1 & F2 & F3).
  unfold r; rewrite F1; cbn [fst snd].
  split; [reflexivity|].
  rewrite F3, F2; auto.
Qed.

(** C1 as stated fails: the transient op is appended to PropLog and recorded
    in the state vector. *)
Lemma transient_set_property_is_logged :
  let r := apply_op (SetProperty transient_cursor) root_replica in
  fst r = Ok (OpId.new "p1" 2) /\
  ~ (prop_log (storage (snd r)) = prop_log (storage root_replica) /\
     state_vector (snd r) = state_vector root_replica).
Proof.
  vm_compute; split; [reflexivity|].
  intros [H _]; discriminate H.
Qed.

Lemma transient_set_property_effect_witness :
  SetVertexProperty.transient transient_cursor = true /\
  fst (get_vertex "root" root_replica) = Ok (Some root_vertex) /\
  exists c, snd (get_vertex "root" root_replica) = with_cache c root_replica.
Proof.
  destruct (transient_set_property_effect root_replica transient_cursor root_vertex
              eq_refl ltac:(vm_compute; reflexivity)) as [_ H].
  split; [reflexivity|split; [vm_compute; reflexivity|exact H]].
Defined.

(** C3 as stated fails: on a reopened replica the rejected move caches the
    target it looked up, and the clock moves. *)
Lemma move_missing_parent_touches_cache :
  let r := apply_op (Move (MoveVertex.mk (OpId.new "p2" 1) "x" (Some "nope"%string) 1))
             reopened_replica in
  fst r = Err (Error.VertexNotFound "nope") /\
  vertex_cache (snd r) <> vertex_cache reopened_replica /\
  lamport_clock (snd r) <> lamport_clock reopened_replica.
Proof.
  vm_compute; split; [reflexivity|split; discriminate].
Qed.

Lemma move_missing_parent_rejected_witness :
  MoveVertex.parent_id move_x_under_nope = Some "nope"%string /\
  fst (apply_op (Move move_x_under_nope) fresh_replica) = Err (Error.VertexNotFound "nope") /\
  state_vector (snd (apply_op (Move move_x_under_nope) fresh_replica)) = [].
Proof.
  destruct (move_missing_parent_rejected fresh_replica move_x_under_nope "nope"
              eq_refl eq_refl eq_refl) as (_ & _ & _ & H).
  destruct (H "p1"%string) as (H1 & H2 & _).
  split; [reflexivity|split; [exact H1|exact H2]].
Defined.

Lemma property_ops_keep_lamport_witness :
  let ops := [op_name; ModifyProperty (ModifyVertexProperty.mk (OpId.new "p2" 9) "root" "doc" [])] in
  forallb is_property_op ops = true /\
  lamport_clock (snd (apply_ops ops root_replica)) = lamport_clock root_replica.
Proof.
  intros ops.
  destruct (property_ops_keep_lamport ops root_replica eq_refl) as (_ & H & _).
  split; [reflexivity|exact H].
Defined.

(* ------------------------------------------------------------------ *)
(** ** Claims about the state vector *)

Ltac ncases :=
  repeat match goal with
         | |- context [N.ltb ?a ?b] => destruct (N.ltb_spec a b)
         | |- context [N.leb ?a ?b] => destruct (N.leb_spec a b)
         | |- context [N.eqb ?a ?b] => destruct (N.eqb_spec a b)
         end.

Lemma existsb_ext' {A : Type} (f g : A -> bool) (l : list A) :
  (forall x, f x = g x) -> existsb f l = existsb g l.
Proof. intros H; induction l as [|x l IH]; simpl; [reflexivity|rewrite H, IH; reflexivity]. Qed.

Lemma existsb_flat_map' {A B : Type} (f : A -> list B) (g : B -> bool) (l : list A) :
  existsb g (flat_map f l) = existsb (fun a => existsb g (f a)) l.
Proof.
  induction l as [|a l IH]; simpl; [reflexivity|].
  rewrite existsb_app, IH; reflexivity.
Qed.

Lemma existsb_andb_r {A : Type} (f : A -> bool) (b : bool) (l : list A) :
  existsb (fun a => f a && b) l = existsb f l && b.
Proof.
  induction l as [|a l IH]; simpl; [reflexivity|].
  rewrite IH; destruct (f a), b, (existsb f l); reflexivity.
Qed.

(** One subtraction step keeps exactly the counters of [range] outside
    [their_range]. *)
Lemma diff_step_has peer their_range range c :
  existsb (range_has c) (diff_step peer their_range range) =
  range_has c range && negb (range_has c their_range).
Proof.
  destruct their_range as [tp ts te], range as [rp rs re].
  unfold diff_step, range_has; simpl.
  ncases; simpl; ncases; simpl; try reflexivity; exfalso; lia.
Qed.

Lemma diff_step_label peer their_range range x :
  In x (diff_step peer their_range range) -> Range.peer_id x = peer \/ x = range.
Proof.
  unfold diff_step.
  destruct (_ <? _); [simpl; intuition|].
  destruct (_ <? _); [simpl; intuition|].
  intros Hin; apply in_app_or in Hin as [Hin|Hin];
    destruct (_ <? _); simpl in Hin; intuition; subst; auto.
Qed.

Lemma diff_fold_has peer c their_ranges : forall remaining,
  existsb (range_has c)
    (fold_left (fun rem their_range => flat_map (diff_step peer their_range) rem)
       their_ranges remaining) =
  existsb (range_has c) remaining && negb (existsb (range_has c) their_ranges).
Proof.
  induction their_ranges as [|t ts IH]; intros remaining; simpl.
  - rewrite andb_true_r; reflexivity.
  - rewrite IH, existsb_flat_map'.
    rewrite (existsb_ext' _ _ remaining (fun r => diff_step_has peer t r c)), existsb_andb_r.
    destruct (existsb (range_has c) remaining), (range_has c t),
      (existsb (range_has c) ts); reflexivity.
Qed.

Lemma diff_fold_label peer their_ranges : forall remaining,
  (forall x, In x remaining -> Range.peer_id x = peer) ->
  forall x, In x (fold_left (fun rem their_range => flat_map (diff_step peer their_range) rem)
                    their_ranges remaining) -> Range.peer_id x = peer.
Proof.
  induction their_ranges as [|t ts IH]; intros remaining Hrem; simpl; [exact Hrem|].
  apply IH; intros x Hx.
  apply in_flat_map in Hx as (a & Ha & Hx).
  destruct (diff_step_label peer t a x Hx) as [H|H]; [exact H|subst; auto].
Qed.

Lemma existsb_same_label (l : list Range.t) k p c :
  (forall x, In x l -> Range.peer_id x = k) ->
  existsb (fun r => String.eqb (Range.peer_id r) p && range_has c r) l =
  String.eqb k p && existsb (range_has c) l.
Proof.
  induction l as [|r l IH]; intros Hl; simpl; [destruct (String.eqb k p); reflexivity|].
  rewrite (Hl r (or_introl eq_refl)), IH by (intros; apply Hl; right; assumption).
  destruct (String.eqb k p), (range_has c r); reflexivity.
Qed.

Lemma existsb_absent_key {V : Type} (m : list (string * V)) (f : string -> V -> bool) p :
  existsb (fun e => String.eqb (fst e) p) m = false ->
  existsb (fun '(k, v) => String.eqb k p && f k v) m = false.
Proof.
  induction m as [|[k v] m IH]; simpl; [reflexivity|].
  destruct (String.eqb k p); simpl; [discriminate|exact IH].
Qed.

Lemma existsb_keyed {V : Type} (m : list (string * V)) (f : string -> V -> bool) p :
  distinct_keys m = true ->
  existsb (fun '(k, v) => String.eqb k p && f k v) m =
  match map_get m p with Some v => f p v | None => false end.
Proof.
  induction m as [|[k v] m IH]; simpl; [reflexivity|].
  intros H; apply andb_prop in H as [Hk Hm].
  rewrite String.eqb_sym.
  destruct (String.eqb p k) eqn:E; simpl.
  - apply String.eqb_eq in E; subst k.
    rewrite existsb_absent_key; [apply orb_false_r|].
    apply negb_true_iff; exact Hk.
  - apply IH; exact Hm.
Qed.

(** C4 (as the code does it): for state vectors whose ranges carry the peer
    they are stored under (all the ones [new] and [add] build), [A.diff(B)]
    contains [(p, c)] iff [A] covers it and [B] does not; and the S5 example. *)
Theorem diff_correct (A B : StateVector)
  (Hdistinct : distinct_keys A = true) (Hlabelled : labelled A = true) :
  (forall p c, contains (diff A B) p c = covers A p c && negb (covers B p c)) /\
  diff S5_mine S5_theirs = [Range.mk "p1" 3 3; Range.mk "p1" 5 5].
Proof.
  split; [|vm_compute; reflexivity].
  intros p c; unfold contains, diff.
  rewrite existsb_flat_map'.
  set (theirs := fun k => match map_get B k with Some rs => rs | None => [] end).
  transitivity (existsb (fun '(k, ours) =>
                  String.eqb k p &&
                  (existsb (range_has c) ours && negb (existsb (range_has c) (theirs k)))) A).
  - unfold labelled in Hlabelled.
    induction A as [|[k ours] A IH]; simpl; [reflexivity|].
    simpl in Hdistinct, Hlabelled.
    apply andb_prop in Hdistinct as [_ Hd]; apply andb_prop in Hlabelled as [Hl HA].
    rewrite IH by assumption; f_equal.
    rewrite existsb_same_label with (k := k).
    + f_equal. rewrite existsb_flat_map'.
      rewrite (existsb_ext' _ (fun o => range_has c o && negb (existsb (range_has c) (theirs k))) ours).
      * apply existsb_andb_r.
      * intros o; unfold diff_range; rewrite diff_fold_has; simpl.
        rewrite orb_false_r; reflexivity.
    + intros x Hx; apply in_flat_map in Hx as (o & Ho & Hx).
      unfold diff_range in Hx; revert x Hx; apply diff_fold_label.
      intros x [<-|[]].
      rewrite forallb_forall in Hl; apply String.eqb_eq, Hl; exact Ho.
  - rewrite (existsb_keyed A (fun k ours => existsb (range_has c) ours &&
                                            negb (existsb (range_has c) (theirs k))) p Hdistinct).
    unfold covers, theirs.
    destruct (map_get A p); [|reflexivity].
    destruct (map_get B p); reflexivity.
Qed.

(** C4 as stated fails: a state vector made by [from_ranges] whose range
    carries another peer's id. *)
Lemma diff_mislabelled_range :
  let A := from_ranges [("p1", [Range.mk "p2" 1 1])] in
  contains (diff A StateVector_new) "p2" 1 = true /\
  covers A "p2" 1 && negb (covers StateVector_new "p2" 1) = false.
Proof. vm_compute; split; reflexivity. Qed.

Lemma diff_correct_witness :
  distinct_keys S5_mine = true /\ labelled S5_mine = true /\
  contains (diff S5_mine S5_theirs) "p1" 5 = true.
Proof.
  destruct (diff_correct S5_mine S5_theirs ltac:(vm_compute; reflexivity)
              ltac:(vm_compute; reflexivity)) as [H _].
  split; [vm_compute; reflexivity|split; [vm_compute; reflexivity|]].
  rewrite H; vm_compute; reflexivity.
Defined.

Lemma wrap_small a : a < U64_MAX -> wrapping_add_u64 a 1 = a + 1.
Proof. unfold wrapping_add_u64, U64_MAX; intros H; apply N.mod_small; lia. Qed.

Lemma map_get_insert_same {V : Type} (m : list (string * V)) k v :
  map_get m k = Some v -> map_insert m k v = m.
Proof.
  induction m as [|[k' v'] m IH]; simpl; [discriminate|].
  destruct (String.eqb k k'); [intros H; injection H as ->; reflexivity|].
  intros H; rewrite IH by exact H; reflexivity.
Qed.

Lemma normal_form_tail r rest :
  normal_form (r :: rest) = true -> normal_form rest = true.
Proof. simpl; intros H; apply andb_prop in H as [_ H]; exact H. Qed.

Lemma normal_form_head r rest :
  normal_form (r :: rest) = true -> Range.start r <= Range.end_ r.
Proof.
  simpl; intros H; apply andb_prop in H as [H _]; apply andb_prop in H as [H _].
  apply N.leb_le; exact H.
Qed.

(** In a normal list every later range starts past [r.end + 1]. *)
Lemma normal_form_head_sep r rest :
  normal_form (r :: rest) = true ->
  forall x, In x rest -> Range.end_ r + 1 < Range.start x.
Proof.
  revert r; induction rest as [|r' rest IH]; intros r Hn x Hx; [destruct Hx|].
  assert (Hr' : normal_form (r' :: rest) = true) by (eapply normal_form_tail; eauto).
  assert (Hsep : Range.end_ r + 1 < Range.start r').
  { simpl in Hn; apply andb_prop in Hn as [Hn _]; apply andb_prop in Hn as [_ Hn].
    apply N.ltb_lt; exact Hn. }
  destruct Hx as [<-|Hx]; [exact Hsep|].
  specialize (IH r' Hr' x Hx); pose proof (normal_form_head r' rest Hr'); lia.
Qed.

Lemma add_extend_covered c rs :
  normal_form rs = true ->
  forallb (fun r => Range.end_ r <? U64_MAX) rs = true ->
  existsb (range_has c) rs = true ->
  add_extend c rs = Some rs.
Proof.
  induction rs as [|r rest IH]; simpl; intros Hn He Hc; [discriminate|].
  apply andb_prop in He as [Her He]; apply N.ltb_lt in Her.
  pose proof (normal_form_head r rest Hn) as Hr.
  pose proof (normal_form_head_sep r rest Hn) as Hsep.
  apply normal_form_tail in Hn.
  rewrite (wrap_small _ Her).
  apply orb_prop in Hc as [Hc|Hc].
  - unfold range_has in Hc; apply andb_prop in Hc as [H1 H2].
    apply N.leb_le in H1; apply N.leb_le in H2.
    rewrite (wrap_small c) by lia.
    ncases; simpl; try (exfalso; lia); reflexivity.
  - apply existsb_exists in Hc as (x & Hx & Hxc).
    unfold range_has in Hxc; apply andb_prop in Hxc as [H1 H2].
    apply N.leb_le in H1; apply N.leb_le in H2.
    pose proof He as Hall.
    rewrite forallb_forall in He; specialize (He x Hx); apply N.ltb_lt in He.
    specialize (Hsep x Hx).
    rewrite (wrap_small c) by lia.
    ncases; simpl; try (exfalso; lia).
    rewrite IH; [reflexivity|exact Hn|exact Hall|].
    + apply existsb_exists; exists x; split; [exact Hx|].
      unfold range_has; apply andb_true_intro; split; apply N.leb_le; lia.
Qed.

Lemma sort_by_start_normal rs :
  normal_form rs = true -> sort_by_start rs = rs.
Proof.
  induction rs as [|r rest IH]; intros Hn; [reflexivity|].
  simpl sort_by_start; rewrite IH by (eapply normal_form_tail; eauto).
  destruct rest as [|r' rest']; [reflexivity|].
  pose proof (normal_form_head_sep r (r' :: rest') Hn r' (or_introl eq_refl)).
  pose proof (normal_form_head r _ Hn).
  simpl; destruct (N.leb_spec (Range.start r) (Range.start r')); [reflexivity|lia].
Qed.

Lemma merge_from_normal p r rest :
  normal_form (r :: rest) = true ->
  forallb (fun r => Range.end_ r <? U64_MAX) (r :: rest) = true ->
  merge_from p r rest = r :: rest.
Proof.
  revert r; induction rest as [|r' rest IH]; intros r Hn He; [reflexivity|].
  pose proof (normal_form_head_sep r (r' :: rest) Hn r' (or_introl eq_refl)) as Hsep.
  simpl in He; apply andb_prop in He as [Her He]; apply N.ltb_lt in Her.
  simpl; rewrite (wrap_small _ Her).
  destruct (N.leb_spec (Range.start r') (Range.end_ r + 1)); [lia|].
  rewrite IH; [reflexivity|eapply normal_form_tail; eauto|exact He].
Qed.

(** C6 (as the code does it): on a peer whose ranges are in normal form and
    stay below [u64::MAX], adding a counter already covered changes nothing. *)
Theorem add_covered_unchanged (sv : StateVector) (p : string) (c : N) (rs : list Range.t)
  (Hget : map_get sv p = Some rs)
  (Hnormal : normal_form rs = true)
  (Hends : forallb (fun r => Range.end_ r <? U64_MAX) rs = true)
  (Hcovered : covers sv p c = true) :
  add sv p c = sv.
Proof.
  unfold covers in Hcovered; rewrite Hget in Hcovered.
  unfold add, normalize_ranges; rewrite Hget.
  rewrite (add_extend_covered c rs Hnormal Hends Hcovered).
  rewrite (map_get_insert_same sv p rs Hget), Hget.
  rewrite (sort_by_start_normal rs Hnormal).
  destruct rs as [|r rest]; simpl merge_ranges.
  - apply map_get_insert_same; exact Hget.
  - rewrite merge_from_normal by assumption.
    apply map_get_insert_same; exact Hget.
Qed.

(** C6 as stated fails: [add] re-normalises a state vector that [from_ranges]
    built out of order, even when the counter is already covered. *)
Lemma add_covered_renormalises :
  let sv := from_ranges [("p1", [Range.mk "p1" 1 5; Range.mk "p1" 3 4])] in
  covers sv "p1" 3 = true /\ add sv "p1" 3 <> sv.
Proof. vm_compute; split; [reflexivity|discriminate]. Qed.

(** The unchecked [+ 1] also breaks it on a state vector [add] built: the
    range starting at 0 "absorbs" [u64::MAX] through the wrap. *)
Lemma add_covered_wraps :
  let sv := add_all StateVector_new "p" [U64_MAX - 1; U64_MAX; 1; 0] in
  covers sv "p" U64_MAX = true /\ add sv "p" U64_MAX <> sv.
Proof. vm_compute; split; [reflexivity|discriminate]. Qed.

Lemma add_covered_unchanged_witness :
  covers S5_mine "p1" 2 = true /\ add S5_mine "p1" 2 = S5_mine.
Proof.
  split; [vm_compute; reflexivity|].
  apply (add_covered_unchanged S5_mine "p1" 2
           [Range.mk "p1" 1 3; Range.mk "p1" 5 5]);
    vm_compute; reflexivity.
Defined.

(** C5: the sequence [u64::MAX - 1, u64::MAX, 1, 0, u64::MAX] leaves [p]'s
    ranges with a pair where [r_i.end + 1 < r_{i+1}.start] fails (a release
    build wraps [u64::MAX + 1] to 0; a debug build panics at [add(p, 1)]). *)
Theorem add_sequence_breaks_normal_form :
  let sv := add_all StateVector_new "p" [U64_MAX - 1; U64_MAX; 1; 0; U64_MAX] in
  map_get sv "p" = Some [Range.mk "p" (U64_MAX - 1) U64_MAX; Range.mk "p" U64_MAX 1] /\
  separated [Range.mk "p" (U64_MAX - 1) U64_MAX; Range.mk "p" U64_MAX 1] = false.
Proof. vm_compute; split; reflexivity. Qed.

(* ------------------------------------------------------------------ *)
(** ** Child indexing and [get_children] *)

(** C7 (code): after S2 both children come back in insertion order, each
    with [idx = 0]: [apply_move] gives every new vertex index 0. *)
Theorem scenario_S2_children_idx_zero :
  children_idx "root" (replica_after scenario_S2 fresh_replica) = [("c1", 0%Z); ("c2", 0%Z)].
Proof. vm_compute; reflexivity. Qed.

Lemma insert_by_idx_length v vs : length (insert_by_idx v vs) = S (length vs).
Proof. induction vs as [|w vs IH]; simpl; [reflexivity|]. destruct (_ <=? _)%Z; simpl; auto. Qed.

Lemma sort_by_idx_length vs : length (sort_by_idx vs) = length vs.
Proof. induction vs as [|v vs IH]; simpl; [reflexivity|]. rewrite insert_by_idx_length, IH; reflexivity. Qed.

Lemma hydrate_length refs : forall s l s',
  hydrate refs s = (Ok l, s') -> (length l <= length refs)%nat.
Proof.
  induction refs as [|[id i] refs IH]; intros s l s' H.
  - cbv in H; inversion H; simpl; lia.
  - simpl in H.
    destruct (get_vertex_shape id s) as [o [c Ho]].
    rewrite (bind_ok _ _ _ _ _ Ho) in H.
    destruct (hydrate refs (with_cache c s)) as [[rest|e] s''] eqn:Hr.
    + rewrite (bind_ok _ _ _ _ _ Hr) in H.
      cbv [ret] in H; inversion H; subst.
      specialize (IH _ _ _ Hr).
      destruct o; simpl; lia.
    + rewrite (bind_err _ _ _ _ _ Hr) in H; discriminate.
Qed.

(** C8 (code): [get_children] reads one page of at most 1000 rows and never
    asks for the next one, so it returns at most 1000 children; and the S2
    children do not have strictly ascending [idx]. *)
Theorem get_children_one_page :
  (forall parent s l s', get_children parent s = (Ok l, s') -> (length l <= 1000)%nat) /\
  strictly_ascending_idx
    (match fst (get_children "root" (replica_after scenario_S2 fresh_replica)) with
     | Ok l => l | Err _ => [] end) = false.
Proof.
  split; [|vm_compute; reflexivity].
  intros parent s l s' H.
  unfold get_children in H.
  unfold vertices_children_page, gets in H; rewrite bind_ok with (a := get_children_page (vertices (storage s)) parent None 1000) (s' := s) in H by reflexivity.
  destruct (hydrate (get_children_page (vertices (storage s)) parent None 1000) s)
    as [[hs|e] s''] eqn:Hh.
  - rewrite (bind_ok _ _ _ _ _ Hh) in H; cbv [ret] in H; inversion H; subst.
    rewrite sort_by_idx_length.
    apply hydrate_length in Hh.
    unfold get_children_page in Hh; rewrite length_map in Hh.
    pose proof (firstn_le_length 1000 (sort_by_idx (filter (fun v => parent_is parent v && true) (vertices (storage s))))).
    lia.
  - rewrite (bind_err _ _ _ _ _ Hh) in H; discriminate.
Qed.

(* ------------------------------------------------------------------ *)
(** ** [get_missing_ops] *)

Lemma scan_stream_nonempty {A : Type} fuel (rows : list A) :
  rows <> [] -> scan_stream fuel rows = None.
Proof.
  intros Hne; induction fuel as [|fuel IH]; simpl; [reflexivity|].
  destruct rows as [|r rows']; [congruence|]. rewrite IH; reflexivity.
Qed.

(** C2 (code): the scans filter on the log's [seq] column, not on the
    counter, and their stream repeats its query until it is empty.  The op
    with counter 5 that [counter5_replica] holds is missing from the empty
    snapshot, yet [get_missing_ops] returns nothing; and on the S2 replica
    the call never ends. *)
Theorem get_missing_ops_seq_not_counter :
  covers (state_vector counter5_replica) "p1" 5 = true /\
  move_log (storage counter5_replica) = [MoveVertex.mk (OpId.new "p1" 5) "root" None 1000] /\
  (forall fuel, get_missing_ops (S fuel) counter5_replica [] = Some []) /\
  (forall fuel, get_missing_ops fuel (replica_after scenario_S2 fresh_replica) [] = None).
Proof.
  split; [vm_compute; reflexivity|].
  split; [vm_compute; reflexivity|].
  split.
  - intros fuel.
    assert (Hd : diff (state_vector counter5_replica) (from_ranges []) = [Range.mk "p1" 5 5])
      by (vm_compute; reflexivity).
    unfold get_missing_ops; rewrite Hd; cbn [fold_left Range.peer_id Range.start Range.end_].
    unfold move_log_scan_range, prop_log_scan_range.
    replace (select_by_seq _ 1 "p1" 5 5 (move_log (storage counter5_replica))) with (@nil MoveVertex.t)
      by (vm_compute; reflexivity).
    replace (select_by_seq _ 1 "p1" 5 5 (prop_log (storage counter5_replica))) with (@nil SetVertexProperty.t)
      by (vm_compute; reflexivity).
    reflexivity.
  - intros fuel.
    set (st := replica_after scenario_S2 fresh_replica).
    assert (Hd : diff (state_vector st) (from_ranges []) = [Range.mk "p1" 1 4])
      by (vm_compute; reflexivity).
    assert (Hm : move_log_scan_range fuel (move_log (storage st)) "p1" 1 4 = None).
    { unfold move_log_scan_range; apply scan_stream_nonempty; vm_compute; discriminate. }
    unfold get_missing_ops; rewrite Hd; cbn [fold_left Range.peer_id Range.start Range.end_].
    rewrite Hm; reflexivity.
Qed.

(* ------------------------------------------------------------------ *)
(** ** The normal form below [u64::MAX] *)

Lemma map_get_insert {V : Type} (m : list (string * V)) k v q :
  map_get (map_insert m k v) q = if String.eqb q k then Some v else map_get m q.
Proof.
  induction m as [|[k' v'] m IH]; simpl.
  - destruct (String.eqb q k); reflexivity.
  - destruct (String.eqb_spec k k') as [<-|Hne]; simpl.
    + destruct (String.eqb q k); reflexivity.
    + rewrite IH.
      destruct (String.eqb_spec q k') as [Hq1|Hq1];
        destruct (String.eqb_spec q k) as [Hq2|Hq2]; congruence.
Qed.

Lemma range_ok_spec r :
  range_ok r = true <-> Range.start r <= Range.end_ r /\ Range.end_ r < U64_MAX.
Proof.
  unfold range_ok; rewrite andb_true_iff, N.leb_le, N.ltb_lt; reflexivity.
Qed.

Lemma add_extend_ok c rs rs' :
  c < U64_MAX -> forallb range_ok rs = true -> add_extend c rs = Some rs' ->
  forallb range_ok rs' = true.
Proof.
  intros Hc; revert rs'; induction rs as [|r rest IH]; intros rs' Hok H; simpl in H; [discriminate|].
  simpl in Hok; apply andb_prop in Hok as [Hr Hrest].
  pose proof Hr as Hr'; apply range_ok_spec in Hr' as [H1 H2].
  rewrite (wrap_small _ H2), (wrap_small _ Hc) in H.
  destruct (N.eqb_spec (Range.end_ r + 1) c).
  { injection H as <-; simpl; rewrite Hrest, andb_true_r; apply range_ok_spec; simpl; lia. }
  destruct (N.eqb_spec (c + 1) (Range.start r)).
  { injection H as <-; simpl; rewrite Hrest, andb_true_r; apply range_ok_spec; simpl; lia. }
  destruct ((Range.start r <=? c) && (c <=? Range.end_ r)).
  { injection H as <-; simpl; rewrite Hr, Hrest; reflexivity. }
  destruct (add_extend c rest) as [t|] eqn:Ht; simpl in H; [|discriminate].
  injection H as <-; simpl; rewrite Hr; apply (IH t Hrest eq_refl).
Qed.

Lemma forallb_insert_by_start (f : Range.t -> bool) r rs :
  forallb f (insert_by_start r rs) = f r && forallb f rs.
Proof.
  induction rs as [|r' rs IH]; simpl; [reflexivity|].
  destruct (Range.start r <=? Range.start r'); simpl; [reflexivity|].
  rewrite IH; destruct (f r), (f r'); reflexivity.
Qed.

Lemma forallb_sort_by_start (f : Range.t -> bool) rs :
  forallb f (sort_by_start rs) = forallb f rs.
Proof.
  induction rs as [|r rs IH]; simpl; [reflexivity|].
  rewrite forallb_insert_by_start, IH; reflexivity.
Qed.

Lemma sorted_insert_by_start r rs :
  sorted_start rs = true -> sorted_start (insert_by_start r rs) = true.
Proof.
  induction rs as [|r' rs IH]; intros Hs; simpl; [reflexivity|].
  simpl in Hs; apply andb_prop in Hs as [Hall Hs].
  destruct (N.leb_spec (Range.start r) (Range.start r')); simpl.
  - rewrite Hall, Hs, andb_true_r.
    apply andb_true_intro; split; [apply N.leb_le; exact H|].
    apply forallb_forall; intros x Hx.
    rewrite forallb_forall in Hall; specialize (Hall x Hx); apply N.leb_le in Hall.
    apply N.leb_le; lia.
  - rewrite forallb_insert_by_start, Hall, IH by exact Hs.
    rewrite ?andb_true_r; apply N.leb_le; lia.
Qed.

Lemma sorted_sort_by_start rs : sorted_start (sort_by_start rs) = true.
Proof.
  induction rs as [|r rs IH]; simpl; [reflexivity|].
  apply sorted_insert_by_start; exact IH.
Qed.

Lemma merge_from_head p c rest :
  exists r t, merge_from p c rest = r :: t /\ Range.start r = Range.start c.
Proof.
  revert c; induction rest as [|n rest IH]; intros c; simpl; [eauto|].
  destruct (Range.start n <=? wrapping_add_u64 (Range.end_ c) 1); [|eauto].
  destruct (IH (Range.mk p (Range.start c) (N.max (Range.end_ c) (Range.end_ n))))
    as (r & t & E & Hs).
  exists r, t; split; [exact E|rewrite Hs; reflexivity].
Qed.

Lemma merge_from_ok p c rest :
  sorted_start (c :: rest) = true -> forallb range_ok (c :: rest) = true ->
  normal_form (merge_from p c rest) = true /\ forallb range_ok (merge_from p c rest) = true.
Proof.
  revert c; induction rest as [|n rest IH]; intros c Hs Hok.
  - simpl in Hok |- *; rewrite andb_true_r in Hok; rewrite Hok.
    pose proof Hok as Hk; apply range_ok_spec in Hk as [H1 _].
    split; [|reflexivity].
    rewrite !andb_true_r; apply N.leb_le; exact H1.
  - simpl in Hs; apply andb_prop in Hs as [Hall Hs]; apply andb_prop in Hall as [Hcn Hall].
    apply andb_prop in Hs as [Hn Hs].
    simpl in Hok; apply andb_prop in Hok as [Hc Hok]; apply andb_prop in Hok as [Hnok Hok].
    pose proof Hc as Hc'; apply range_ok_spec in Hc' as [Hc1 Hc2].
    pose proof Hnok as Hn'; apply range_ok_spec in Hn' as [Hn1 Hn2].
    apply N.leb_le in Hcn.
    simpl; rewrite (wrap_small _ Hc2).
    destruct (N.leb_spec (Range.start n) (Range.end_ c + 1)).
    + apply IH.
      * simpl; rewrite Hs, andb_true_r.
        apply forallb_forall; intros x Hx.
        rewrite forallb_forall in Hall; specialize (Hall x Hx); apply N.leb_le in Hall.
        apply N.leb_le; exact Hall.
      * simpl; rewrite Hok, andb_true_r; apply range_ok_spec; simpl; lia.
    + destruct (IH n) as [Hnf Hfo].
      { simpl; rewrite Hn, Hs; reflexivity. }
      { simpl; rewrite Hnok, Hok; reflexivity. }
      destruct (merge_from_head p n rest) as (r & t & E & Hr).
      rewrite E in Hnf, Hfo |- *; simpl; rewrite Hc; simpl in Hfo; rewrite Hfo.
      simpl in Hnf; rewrite Hnf, andb_true_r; split; [|reflexivity].
      apply andb_true_intro; split; [apply N.leb_le; exact Hc1|apply N.ltb_lt; lia].
Qed.

Lemma normal_form_separated rs : normal_form rs = true -> separated rs = true.
Proof.
  induction rs as [|r rest IH]; intros Hn; [reflexivity|].
  pose proof (normal_form_head r rest Hn) as Hh.
  pose proof (normal_form_head_sep r rest Hn) as Hsep.
  apply normal_form_tail in Hn.
  simpl; rewrite IH by exact Hn; rewrite andb_true_r.
  destruct rest as [|r' rest']; [reflexivity|].
  specialize (Hsep r' (or_introl eq_refl)).
  apply andb_true_intro; split; [apply N.leb_le|apply N.ltb_lt]; lia.
Qed.

Lemma add_keeps_invariant sv p c :
  sv_invariant sv -> c < U64_MAX -> sv_invariant (add sv p c).
Proof.
  intros Hinv Hc.
  set (ranges := match map_get sv p with Some rs => rs | None => [] end).
  assert (Hr : forallb range_ok ranges = true).
  { unfold ranges; destruct (map_get sv p) as [rs|] eqn:E; [apply (Hinv p rs E)|reflexivity]. }
  set (ranges' := match add_extend c ranges with
                  | Some rs => rs
                  | None => ranges ++ [Range.mk p c c]
                  end).
  assert (Hr' : forallb range_ok ranges' = true).
  { unfold ranges'; destruct (add_extend c ranges) as [rs|] eqn:E.
    - exact (add_extend_ok c ranges rs Hc Hr E).
    - rewrite forallb_app, Hr; simpl; rewrite andb_true_r; apply range_ok_spec; simpl; lia. }
  unfold add, normalize_ranges; fold ranges; fold ranges'.
  rewrite map_get_insert, String.eqb_refl.
  intros q rs; rewrite !map_get_insert.
  destruct (String.eqb q p); [|apply Hinv].
  intros H; injection H as <-.
  unfold merge_ranges.
  pose proof (sorted_sort_by_start ranges') as Hs.
  pose proof (forallb_sort_by_start range_ok ranges') as Hf; rewrite Hr' in Hf.
  destruct (sort_by_start ranges') as [|r t]; [split; reflexivity|].
  apply merge_from_ok; assumption.
Qed.

(** Extra (C5 below the overflow): any sequence of [add] calls whose
    counters are below [u64::MAX], started from the empty state vector,
    leaves every peer's ranges sorted by start with [r_i.end + 1 <
    r_{i+1}.start] for every consecutive pair. *)
Theorem add_calls_normal_form (calls : list (string * N))
  (Hc : forallb (fun '(_, c) => c <? U64_MAX) calls = true) :
  forall q rs, map_get (add_calls StateVector_new calls) q = Some rs ->
  separated rs = true /\ normal_form rs = true.
Proof.
  assert (Hgen : forall sv, sv_invariant sv -> sv_invariant (add_calls sv calls)).
  { induction calls as [|[p c] calls IH]; intros sv Hinv; [exact Hinv|].
    simpl in Hc; apply andb_prop in Hc as [Hc1 Hc2]; apply N.ltb_lt in Hc1.
    apply (IH Hc2); apply add_keeps_invariant; assumption. }
  intros q rs H.
  destruct (Hgen StateVector_new (fun q rs H => ltac:(discriminate H)) q rs H) as [Hn _].
  split; [apply normal_form_separated|]; exact Hn.
Qed.

Lemma add_calls_normal_form_witness :
  separated [Range.mk "p" 1 3; Range.mk "p" 7 7] = true /\
  normal_form [Range.mk "p" 1 3; Range.mk "p" 7 7] = true.
Proof.
  apply (add_calls_normal_form [("p", 3); ("q", 4); ("p", 1); ("p", 7); ("p", 2)] eq_refl "p").
  vm_compute; reflexivity.
Defined.

(* ------------------------------------------------------------------ *)
(** ** [add] covers exactly one more counter *)

Lemma existsb_insert_by_start (f : Range.t -> bool) r rs :
  existsb f (insert_by_start r rs) = f r || existsb f rs.
Proof.
  induction rs as [|r' rs IH]; simpl; [reflexivity|].
  destruct (Range.start r <=? Range.start r'); simpl; [reflexivity|].
  rewrite IH; destruct (f r), (f r'); reflexivity.
Qed.

Lemma existsb_sort_by_start (f : Range.t -> bool) rs :
  existsb f (sort_by_start rs) = existsb f rs.
Proof.
  induction rs as [|r rs IH]; simpl; [reflexivity|].
  rewrite existsb_insert_by_start, IH; reflexivity.
Qed.

Lemma merge_from_has p d cur rest :
  sorted_start (cur :: rest) = true ->
  forallb (fun r => Range.end_ r <? U64_MAX) (cur :: rest) = true ->
  existsb (range_has d) (merge_from p cur rest) = existsb (range_has d) (cur :: rest).
Proof.
  revert cur; induction rest as [|n rest IH]; intros cur Hs He; [reflexivity|].
  simpl in Hs; apply andb_prop in Hs as [Hall Hs]; apply andb_prop in Hall as [Hcn Hall].
  apply N.leb_le in Hcn.
  simpl in He; apply andb_prop in He as [Hc He]; apply andb_prop in He as [Hn He].
  apply N.ltb_lt in Hc; apply N.ltb_lt in Hn.
  simpl merge_from; rewrite (wrap_small _ Hc).
  destruct (N.leb_spec (Range.start n) (Range.end_ cur + 1)).
  - rewrite IH.
    + simpl existsb; generalize (existsb (range_has d) rest) as b; intros b.
      unfold range_has; simpl.
      destruct (N.max_spec (Range.end_ cur) (Range.end_ n)) as [[Hm ->]|[Hm ->]];
        ncases; destruct b; simpl; try reflexivity; lia.
    + assert (Hrest : sorted_start rest = true)
        by (simpl in Hs; apply andb_prop in Hs as [_ Hs]; exact Hs).
      simpl; rewrite Hrest, andb_true_r.
      apply forallb_forall; intros x Hx.
      rewrite forallb_forall in Hall; exact (Hall x Hx).
    + simpl; rewrite He, andb_true_r; apply N.ltb_lt; simpl; lia.
  - simpl existsb; rewrite IH; [reflexivity| |].
    + exact Hs.
    + simpl; rewrite He, andb_true_r; apply N.ltb_lt; exact Hn.
Qed.

Lemma add_extend_has c d rs rs' :
  c < U64_MAX -> forallb range_ok rs = true -> add_extend c rs = Some rs' ->
  existsb (range_has d) rs' = existsb (range_has d) rs || (d =? c).
Proof.
  intros Hc; revert rs'; induction rs as [|r rest IH]; intros rs' Hok H; simpl in H; [discriminate|].
  simpl in Hok; apply andb_prop in Hok as [Hr Hrest].
  apply range_ok_spec in Hr as [H1 H2].
  rewrite (wrap_small _ H2), (wrap_small _ Hc) in H.
  destruct (N.eqb_spec (Range.end_ r + 1) c).
  { injection H as <-; simpl; generalize (existsb (range_has d) rest); intros b.
    unfold range_has; simpl; ncases; destruct b; simpl; try reflexivity; lia. }
  destruct (N.eqb_spec (c + 1) (Range.start r)).
  { injection H as <-; simpl; generalize (existsb (range_has d) rest); intros b.
    unfold range_has; simpl; ncases; destruct b; simpl; try reflexivity; lia. }
  destruct (N.leb_spec (Range.start r) c); destruct (N.leb_spec c (Range.end_ r)); simpl in H.
  { injection H as <-; simpl; generalize (existsb (range_has d) rest); intros b.
    unfold range_has; ncases; destruct b; simpl; try reflexivity; lia. }
  all: destruct (add_extend c rest) as [t|] eqn:Ht; simpl in H; [|discriminate].
  all: injection H as <-; simpl; rewrite (IH t Hrest eq_refl), orb_assoc; reflexivity.
Qed.

Lemma forallb_range_ok_ends rs :
  forallb range_ok rs = true -> forallb (fun r => Range.end_ r <? U64_MAX) rs = true.
Proof.
  intros H; apply forallb_forall; intros x Hx.
  rewrite forallb_forall in H; specialize (H x Hx); apply range_ok_spec in H as [_ He].
  apply N.ltb_lt; exact He.
Qed.

Lemma add_covers sv p c :
  forallb range_ok (match map_get sv p with Some rs => rs | None => [] end) = true ->
  c < U64_MAX ->
  forall q d, covers (add sv p c) q d = covers sv q d || (String.eqb q p && (d =? c)).
Proof.
  intros Hr Hc.
  set (ranges := match map_get sv p with Some rs => rs | None => [] end) in Hr.
  set (ranges' := match add_extend c ranges with
                  | Some rs => rs
                  | None => ranges ++ [Range.mk p c c]
                  end).
  assert (Hr' : forallb range_ok ranges' = true).
  { unfold ranges'; destruct (add_extend c ranges) as [rs|] eqn:E.
    - exact (add_extend_ok c ranges rs Hc Hr E).
    - rewrite forallb_app, Hr; simpl; rewrite andb_true_r; apply range_ok_spec; simpl; lia. }
  assert (Hhas : forall d, existsb (range_has d) ranges' = existsb (range_has d) ranges || (d =? c)).
  { intros d; unfold ranges'; destruct (add_extend c ranges) as [rs|] eqn:E.
    - exact (add_extend_has c d ranges rs Hc Hr E).
    - rewrite existsb_app; simpl; unfold range_has; simpl.
      ncases; simpl; rewrite ?orb_false_r; try reflexivity; lia. }
  intros q d.
  unfold covers, add, normalize_ranges; fold ranges; fold ranges'.
  rewrite map_get_insert, String.eqb_refl, !map_get_insert.
  destruct (String.eqb_spec q p) as [->|Hne]; simpl.
  - unfold merge_ranges.
    pose proof (sorted_sort_by_start ranges') as Hs.
    pose proof (forallb_sort_by_start range_ok ranges') as Hf; rewrite Hr' in Hf.
    pose proof (existsb_sort_by_start (range_has d) ranges') as Hx.
    rewrite Hhas in Hx.
    assert (Hcov : match map_get sv p with Some rs => existsb (range_has d) rs | None => false end
                   = existsb (range_has d) ranges)
      by (unfold ranges; destruct (map_get sv p); reflexivity).
    rewrite Hcov.
    destruct (sort_by_start ranges') as [|r t]; [exact Hx|].
    rewrite merge_from_has; [exact Hx|exact Hs|apply forallb_range_ok_ends; exact Hf].
  - rewrite orb_false_r; reflexivity.
Qed.

(** Extra: below [u64::MAX], [add(p, c)] makes the state vector cover
    exactly what it covered before plus [(p, c)]: it never drops a counter
    and never adds another one, for any peer. *)
Theorem add_covers_exactly (sv : StateVector) (p : string) (c : N)
  (Hranges : forallb range_ok (match map_get sv p with Some rs => rs | None => [] end) = true)
  (Hc : c < U64_MAX) :
  forall q d, covers (add sv p c) q d = covers sv q d || (String.eqb q p && (d =? c)).
Proof. exact (add_covers sv p c Hranges Hc). Qed.

Lemma add_covers_exactly_witness :
  covers (add S5_mine "p1" 4) "p1" 4 = covers S5_mine "p1" 4 || (String.eqb "p1" "p1" && (4 =? 4)).
Proof. apply (add_covers_exactly S5_mine "p1" 4); vm_compute; reflexivity. Defined.

(* ------------------------------------------------------------------ *)
(** ** [OpId::compare] *)

Lemma ascii_compare_refl a : Ascii.compare a a = Eq.
Proof. unfold Ascii.compare; apply N.compare_refl. Qed.

Lemma string_compare_refl s : String.compare s s = Eq.
Proof. induction s as [|a s IH]; simpl; [reflexivity|]. rewrite ascii_compare_refl; exact IH. Qed.

Lemma string_compare_lt_trans s1 s2 s3 :
  String.compare s1 s2 = Lt -> String.compare s2 s3 = Lt -> String.compare s1 s3 = Lt.
Proof.
  revert s2 s3; induction s1 as [|a s1 IH]; intros [|b s2] [|c s3]; simpl; intros H1 H2;
    try discriminate; try reflexivity.
  destruct (Ascii.compare a b) eqn:E1; try discriminate;
    destruct (Ascii.compare b c) eqn:E2; try discriminate.
  - apply Ascii.compare_eq_iff in E1; apply Ascii.compare_eq_iff in E2; subst.
    rewrite ascii_compare_refl; exact (IH _ _ H1 H2).
  - apply Ascii.compare_eq_iff in E1; subst; rewrite E2; reflexivity.
  - apply Ascii.compare_eq_iff in E2; subst; rewrite E1; reflexivity.
  - unfold Ascii.compare in *.
    pose proof (proj1 (N.compare_lt_iff _ _) E1) as L1.
    pose proof (proj1 (N.compare_lt_iff _ _) E2) as L2.
    rewrite (proj2 (N.compare_lt_iff (Ascii.N_of_ascii a) (Ascii.N_of_ascii c)))
      by (eapply N.lt_trans; eassumption).
    reflexivity.
Qed.

(** Extra: [OpId::compare] is a strict total order on operation ids: it
    answers [Equal] exactly on equal ids, swapping the arguments reverses the
    answer, and [Less] is transitive; so sorting by it ([get_missing_ops])
    has one result up to equal ids. *)
Theorem opid_compare_total_order (a b c : OpId.t) :
  (OpId.compare a b = Eq <-> a = b) /\
  OpId.compare b a = CompOpp (OpId.compare a b) /\
  (OpId.compare a b = Lt -> OpId.compare b c = Lt -> OpId.compare a c = Lt).
Proof.
  destruct a as [pa ca], b as [pb cb], c as [pc cc]; unfold OpId.compare; simpl.
  split; [|split].
  - split.
    + destruct (N.compare_spec ca cb); try discriminate.
      intros H'; apply String.compare_eq_iff in H'; subst; reflexivity.
    + intros H; injection H as -> ->; rewrite N.compare_refl; apply string_compare_refl.
  - rewrite (N.compare_antisym ca cb).
    destruct (N.compare ca cb); simpl; [apply String.compare_antisym|reflexivity|reflexivity].
  - destruct (N.compare_spec ca cb) as [->|Hab|Hab]; destruct (N.compare_spec cb cc) as [->|Hbc|Hbc];
      intros H1 H2; try discriminate.
    all: cbn in *; try rewrite N.compare_refl.
    + exact (string_compare_lt_trans _ _ _ H1 H2).
    + reflexivity.
    + rewrite (proj2 (N.compare_lt_iff ca cc)) by exact Hab; reflexivity.
    + rewrite (proj2 (N.compare_lt_iff ca cc)) by (eapply N.lt_trans; eassumption);
        reflexivity.
Qed.

(* ------------------------------------------------------------------ *)
(** ** What [get_missing_ops] can return *)

Lemma scan_stream_some {A : Type} fuel (rows : list A) l :
  scan_stream fuel rows = Some l -> rows = [] /\ l = [].
Proof.
  destruct rows as [|r rs].
  - destruct fuel; simpl; [discriminate|]; intros H; injection H as <-; auto.
  - rewrite scan_stream_nonempty by discriminate; discriminate.
Qed.

(** Extra: whenever [get_missing_ops] returns, it returns no operation: a
    scan with a matching row repeats forever, so only scans of empty ranges
    end. *)
Theorem get_missing_ops_only_empty (fuel : nat) (s : RepTree)
  (their_state : list (string * list Range.t)) (ops : list VertexOperation)
  (H : get_missing_ops fuel s their_state = Some ops) : ops = [].
Proof.
  unfold get_missing_ops in H.
  match type of H with
  | option_map _ (fold_left ?F ?rs _) = _ =>
      assert (Hinv : forall l acc, acc = None \/ acc = Some [] ->
                     fold_left F l acc = None \/ fold_left F l acc = Some [])
  end.
  { intros l; induction l as [|r l IH]; intros acc Hacc; simpl; [exact Hacc|].
    apply IH; destruct Hacc as [->| ->]; [left; reflexivity|].
    destruct (move_log_scan_range _ _ _ _ _) as [moves|] eqn:E1; [|left; reflexivity].
    destruct (prop_log_scan_range _ _ _ _ _) as [props|] eqn:E2; [|left; reflexivity].
    unfold move_log_scan_range in E1; unfold prop_log_scan_range in E2.
    apply scan_stream_some in E1 as [_ ->]; apply scan_stream_some in E2 as [_ ->].
    right; reflexivity. }
  destruct (Hinv (diff (state_vector s) (from_ranges their_state)) (Some []) (or_intror eq_refl))
    as [E|E]; rewrite E in H; simpl in H; [discriminate|].
  injection H as <-; reflexivity.
Qed.

Lemma get_missing_ops_only_empty_witness :
  get_missing_ops 1 counter5_replica [] = Some [] /\ @nil VertexOperation = [].
Proof.
  split; [vm_compute; reflexivity|].
  apply (get_missing_ops_only_empty 1 counter5_replica [] []); vm_compute; reflexivity.
Defined.

(* ------------------------------------------------------------------ *)
(** ** The vertex store and the cache *)

Lemma storage_get_vertex_app rows rows' k :
  storage_get_vertex (rows ++ rows') k =
  match storage_get_vertex rows k with
  | Some v => Some v
  | None => storage_get_vertex rows' k
  end.
Proof.
  induction rows as [|v rows IH]; simpl; [reflexivity|].
  destruct (String.eqb (EncodedVertex.id v) k); [reflexivity|exact IH].
Qed.

Lemma storage_get_vertex_id rows k v :
  storage_get_vertex rows k = Some v -> EncodedVertex.id v = k.
Proof.
  induction rows as [|w rows IH]; simpl; [discriminate|].
  destruct (String.eqb_spec (EncodedVertex.id w) k) as [E|_]; [|exact IH].
  intros H; injection H as <-; exact E.
Qed.

Lemma storage_get_vertex_filter rows i k :
  storage_get_vertex (filter (fun w => negb (String.eqb (EncodedVertex.id w) i)) rows) k =
  if String.eqb i k then None else storage_get_vertex rows k.
Proof.
  induction rows as [|w rows IH]; simpl.
  - destruct (String.eqb i k); reflexivity.
  - destruct (String.eqb_spec (EncodedVertex.id w) i) as [Ewi|Ewi]; simpl.
    + rewrite IH.
      destruct (String.eqb_spec i k) as [Eik|Hik]; [reflexivity|].
      destruct (String.eqb_spec (EncodedVertex.id w) k); [congruence|reflexivity].
    + destruct (String.eqb_spec (EncodedVertex.id w) k) as [Ewk|Ewk].
      * destruct (String.eqb_spec i k); [congruence|reflexivity].
      * exact IH.
Qed.

Lemma storage_put_get rows v k :
  storage_get_vertex (storage_put_vertex rows v) k =
  if String.eqb (EncodedVertex.id v) k then Some v else storage_get_vertex rows k.
Proof.
  unfold storage_put_vertex; rewrite storage_get_vertex_app, storage_get_vertex_filter.
  destruct (String.eqb (EncodedVertex.id v) k) eqn:E; simpl; rewrite ?E; [reflexivity|].
  destruct (storage_get_vertex rows k); reflexivity.
Qed.

Lemma lru_peek_remove c k p :
  lru_peek (lru_remove c k) p = if String.eqb k p then None else lru_peek c p.
Proof.
  induction c as [|[k' v] c IH]; simpl.
  - destruct (String.eqb k p); reflexivity.
  - destruct (String.eqb_spec k' k) as [->|Hne]; simpl.
    + rewrite IH; destruct (String.eqb k p); reflexivity.
    + destruct (String.eqb_spec k' p) as [->|Hkp].
      * destruct (String.eqb_spec k p); [congruence|reflexivity].
      * exact IH.
Qed.

Lemma lru_peek_firstn n c p v :
  lru_peek (firstn n c) p = Some v -> lru_peek c p = Some v.
Proof.
  revert c; induction n as [|n IH]; intros [|[k w] c]; simpl; try discriminate.
  destruct (String.eqb k p); [auto|apply IH].
Qed.

Lemma lru_put_peek cap c k v p w :
  lru_peek (lru_put cap c k v) p = Some w ->
  (k = p /\ w = v) \/ (k <> p /\ lru_peek c p = Some w).
Proof.
  unfold lru_put; intros H.
  assert (H' : lru_peek ((k, v) :: lru_remove c k) p = Some w)
    by (destruct (_ <=? _); [exact H|exact (lru_peek_firstn _ _ _ _ H)]).
  simpl in H'; rewrite lru_peek_remove in H'.
  destruct (String.eqb_spec k p); [left; split; [assumption|congruence]|right; auto].
Qed.

Lemma lru_get_peek c k v c' :
  lru_get c k = (Some v, c') ->
  lru_peek c k = Some v /\ (forall p w, lru_peek c' p = Some w -> lru_peek c p = Some w).
Proof.
  unfold lru_get; destruct (lru_peek c k) as [u|] eqn:E; intros H; [|discriminate].
  injection H as <- <-; split; [reflexivity|].
  intros p w; simpl; rewrite lru_peek_remove.
  destruct (String.eqb_spec k p) as [<-|_]; [congruence|auto].
Qed.

Lemma get_vertex_coherent id s :
  cache_coherent s ->
  exists c, get_vertex id s = (Ok (storage_get_vertex (vertices (storage s)) id), with_cache c s)
            /\ cache_coherent (with_cache c s).
Proof.
  intros Hc; unfold get_vertex.
  destruct (lru_get (vertex_cache s) id) as [[v|] c'] eqn:E.
  - apply lru_get_peek in E as [Hv Hsub].
    exists c'; rewrite (Hc _ _ Hv); split; [reflexivity|].
    intros p w Hp; exact (Hc p w (Hsub p w Hp)).
  - destruct (storage_get_vertex (vertices (storage s)) id) as [v|] eqn:Hs.
    + exists (lru_put (default_cache_size s) (vertex_cache s) id v); split; [reflexivity|].
      intros p w Hp; apply lru_put_peek in Hp as [[<- ->]|[_ Hp]]; [exact Hs|exact (Hc p w Hp)].
    + exists (vertex_cache s); split; [destruct s; reflexivity|].
      destruct s; exact Hc.
Qed.

(** Computations that keep the cache coherent with the store. *)
Definition keeps_coherent {A : Type} (m : M A) : Prop :=
  forall s, cache_coherent s -> cache_coherent (snd (m s)).

Lemma keeps_ret {A : Type} (a : A) : keeps_coherent (ret a).
Proof. intros s H; exact H. Qed.

Lemma keeps_throw {A : Type} e : keeps_coherent (@throw A e).
Proof. intros s H; exact H. Qed.

Lemma keeps_bind {A B : Type} (m : M A) (k : A -> M B) :
  keeps_coherent m -> (forall a, keeps_coherent (k a)) -> keeps_coherent (bind m k).
Proof.
  intros Hm Hk s Hs; unfold bind.
  specialize (Hm s Hs); destruct (m s) as [[a|e] s'] eqn:E; simpl in *; [apply Hk|]; exact Hm.
Qed.

Lemma keeps_modify f :
  (forall s, vertex_cache (f s) = vertex_cache s /\ vertices (storage (f s)) = vertices (storage s)) ->
  keeps_coherent (modify f).
Proof.
  intros Hf s Hs k v; simpl; destruct (Hf s) as [-> ->]; apply Hs.
Qed.

Lemma keeps_gets {A : Type} (f : RepTree -> A) : keeps_coherent (gets f).
Proof. intros s H; exact H. Qed.

Lemma keeps_new_op_id : keeps_coherent new_op_id.
Proof. intros s H; exact H. Qed.

Lemma keeps_get_vertex id : keeps_coherent (get_vertex id).
Proof.
  intros s Hs; destruct (get_vertex_coherent id s Hs) as (c & -> & Hc); exact Hc.
Qed.

(** A lookup followed by code that may rely on what it returned. *)
Lemma keeps_bind_get {B : Type} id (k : option EncodedVertex.t -> M B) :
  (forall o, (forall v, o = Some v -> EncodedVertex.id v = id) -> keeps_coherent (k o)) ->
  keeps_coherent (bind (get_vertex id) k).
Proof.
  intros Hk s Hs; unfold bind.
  destruct (get_vertex_coherent id s Hs) as (c & -> & Hc).
  apply Hk; [|exact Hc].
  intros v Hv; exact (storage_get_vertex_id _ _ _ Hv).
Qed.

Lemma keeps_put_cache v k :
  EncodedVertex.id v = k -> keeps_coherent (put_vertex v ;; cache_put k v).
Proof.
  intros Hid s Hs p w; simpl.
  intros Hp; apply lru_put_peek in Hp as [[<- ->]|[Hne Hp]].
  - rewrite storage_put_get, Hid, String.eqb_refl; reflexivity.
  - rewrite storage_put_get.
    destruct (String.eqb_spec (EncodedVertex.id v) p) as [E|_]; [congruence|].
    exact (Hs p w Hp).
Qed.

Lemma keeps_vertices_children_page p a l : keeps_coherent (vertices_children_page p a l).
Proof. intros s H; exact H. Qed.

Lemma keeps_log_sv :
  (forall op, keeps_coherent (move_log_append op)) /\
  (forall op, keeps_coherent (prop_log_append op)) /\
  (forall p c, keeps_coherent (state_vector_add p c)) /\
  (forall t, keeps_coherent (update_lamport_clock t)).
Proof. repeat split; intros; apply keeps_modify; intros; split; reflexivity. Qed.

Create HintDb coherent.
#[local] Hint Resolve keeps_ret keeps_throw keeps_gets keeps_new_op_id keeps_get_vertex
  keeps_vertices_children_page : coherent.

Ltac coherent_step :=
  repeat match goal with
         | |- keeps_coherent (bind (get_vertex _) _) =>
             apply keeps_bind_get; let o := fresh "o" in let Ho := fresh "Ho" in intros o Ho
         | |- keeps_coherent (bind _ _) => apply keeps_bind; [|intros]
         | |- keeps_coherent (match ?x with _ => _ end) => destruct x
         | |- keeps_coherent (if ?b then _ else _) => destruct b
         | |- keeps_coherent (move_log_append _) => apply (proj1 keeps_log_sv)
         | |- keeps_coherent (prop_log_append _) => apply (proj1 (proj2 keeps_log_sv))
         | |- keeps_coherent (state_vector_add _ _) => apply (proj1 (proj2 (proj2 keeps_log_sv)))
         | |- keeps_coherent (update_lamport_clock _) => apply (proj2 (proj2 (proj2 keeps_log_sv)))
         | |- keeps_coherent _ => auto with coherent
         end.

Lemma keeps_apply_move op : keeps_coherent (apply_move op).
Proof.
  unfold apply_move.
  apply keeps_bind_get; intros target Ht; cbv zeta.
  apply keeps_bind.
  - destruct (MoveVertex.parent_id op); coherent_step.
  - intros _; destruct (negb (is_some target)).
    + apply keeps_put_cache; reflexivity.
    + apply keeps_bind_get; intros found Hf.
      destruct found as [vertex|]; [|apply keeps_throw].
      apply keeps_bind; [destruct (MoveVertex.parent_id op); coherent_step|intros siblings].
      apply keeps_put_cache; simpl; apply Hf; reflexivity.
Qed.

Lemma keeps_apply_property op : keeps_coherent (apply_property op).
Proof.
  unfold apply_property.
  apply keeps_bind_get; intros found Hf.
  destruct found as [vertex|]; [|apply keeps_throw].
  destruct (SetVertexProperty.transient op); [apply keeps_ret|].
  apply keeps_put_cache; simpl; apply Hf; reflexivity.
Qed.

#[local] Hint Resolve keeps_apply_move keeps_apply_property : coherent.

Lemma keeps_apply_op op : keeps_coherent (apply_op op).
Proof. destruct op; unfold apply_op; coherent_step. Qed.

#[local] Hint Resolve keeps_apply_op : coherent.

Lemma keeps_apply_ops ops : keeps_coherent (apply_ops ops).
Proof. induction ops as [|op ops IH]; simpl; coherent_step. Qed.

Lemma keeps_hydrate refs : keeps_coherent (hydrate refs).
Proof. induction refs as [|[id i] refs IH]; simpl; coherent_step. Qed.

#[local] Hint Resolve keeps_apply_ops keeps_hydrate : coherent.

Lemma keeps_get_children p : keeps_coherent (get_children p).
Proof. unfold get_children; coherent_step. Qed.

Lemma keeps_create_vertex id parent : keeps_coherent (create_vertex id parent).
Proof. unfold create_vertex; coherent_step. Qed.

Lemma keeps_set_property id key value : keeps_coherent (set_property id key value).
Proof. unfold set_property; coherent_step. Qed.

Lemma keeps_move_vertex id parent : keeps_coherent (move_vertex id parent).
Proof. unfold move_vertex; coherent_step. Qed.

Lemma reachable_coherent s : reachable s -> cache_coherent s.
Proof.
  induction 1.
  - intros k v H; discriminate.
  - apply keeps_apply_op; assumption.
  - apply keeps_apply_ops; assumption.
  - apply keeps_get_vertex; assumption.
  - apply keeps_get_children; assumption.
  - apply keeps_create_vertex; assumption.
  - apply keeps_set_property; assumption.
  - apply keeps_move_vertex; assumption.
Qed.

Lemma get_vertex_reads_store id s :
  cache_coherent s -> fst (get_vertex id s) = Ok (storage_get_vertex (vertices (storage s)) id).
Proof. intros Hc; destruct (get_vertex_coherent id s Hc) as (c & -> & _); reflexivity. Qed.

(** Extra: the vertex cache never changes what [get_vertex] answers: on every
    replica a program can reach ([RepTree::new], then any [apply_op],
    [apply_ops], [get_vertex], [get_children], [create_vertex],
    [set_property] or [move_vertex]), [get_vertex(id)] returns the store's
    row for [id], and [None] when the store has none. *)
Theorem get_vertex_matches_store (s : RepTree) (id : VertexId) (Hs : reachable s) :
  fst (get_vertex id s) = Ok (storage_get_vertex (vertices (storage s)) id).
Proof. exact (get_vertex_reads_store id s (reachable_coherent s Hs)). Qed.

Lemma get_vertex_matches_store_witness :
  reachable (replica_after scenario_S2 fresh_replica) /\
  fst (get_vertex "c1" (replica_after scenario_S2 fresh_replica)) =
  Ok (storage_get_vertex (vertices (storage (replica_after scenario_S2 fresh_replica))) "c1").
Proof.
  assert (H : reachable (replica_after scenario_S2 fresh_replica))
    by (apply reachable_apply_ops; apply reachable_new).
  split; [exact H|].
  apply (get_vertex_matches_store _ "c1" H).
Defined.

(* ------------------------------------------------------------------ *)
(** ** The local API: [create_vertex], [set_property], [move_vertex] *)

Lemma apply_move_op_lamport (s : RepTree) (mv : MoveVertex.t) :
  lamport_clock (snd (apply_op (Move mv) s)) =
  wrapping_add_u64 (N.max (lamport_clock s) (MoveVertex.timestamp mv)) 1.
Proof.
  unfold apply_op.
  rewrite (bind_ok _ _ s tt
             (with_lamport (wrapping_add_u64 (N.max (lamport_clock s) (MoveVertex.timestamp mv)) 1) s))
    by reflexivity.
  match goal with |- lamport_clock (snd (?m ?s1)) = _ => assert (Hm : lamport_stable m) end.
  { stable. }
  rewrite Hm; reflexivity.
Qed.

Lemma bind_ret_snd {A B : Type} (m : M A) (b : B) s :
  snd (bind m (fun _ => ret b) s) = snd (m s).
Proof. unfold bind; destruct (m s) as [[a|e] s']; reflexivity. Qed.

Lemma bind_ret_fst {A B : Type} (m : M A) (b : B) s :
  fst (bind m (fun _ => ret b) s) = match fst (m s) with Ok _ => Ok b | Err e => Err e end.
Proof. unfold bind; destruct (m s) as [[a|e] s']; reflexivity. Qed.

(** Extra: each local call consumes one lamport value for its [OpId] and
    returns [OpId(peer, lamport)]; [create_vertex] and [move_vertex] then
    advance the clock once more for their own timestamp, so they move it by
    two, [set_property] by one; this holds whether the call succeeds or
    fails (in [u64], wrapping at its maximum). *)
Theorem local_ops_advance_clock (s : RepTree) (id : VertexId) (parent : option VertexId)
  (key : string) (value : VertexPropertyType.t) :
  lamport_clock (snd (create_vertex id parent s)) =
    wrapping_add_u64 (wrapping_add_u64 (lamport_clock s) 1) 1 /\
  lamport_clock (snd (move_vertex id parent s)) =
    wrapping_add_u64 (wrapping_add_u64 (lamport_clock s) 1) 1 /\
  lamport_clock (snd (set_property id key value s)) = wrapping_add_u64 (lamport_clock s) 1 /\
  match fst (move_vertex id parent s) with
  | Ok r => r = OpId.new (peer_id s) (lamport_clock s)
  | Err _ => True
  end /\
  match fst (set_property id key value s) with
  | Ok r => r = OpId.new (peer_id s) (lamport_clock s)
  | Err _ => True
  end.
Proof.
  set (L1 := wrapping_add_u64 (lamport_clock s) 1).
  set (s1 := with_lamport L1 s).
  assert (Hnew : new_op_id s = (Ok (OpId.new (peer_id s) (lamport_clock s)), s1)) by reflexivity.
  assert (Hgets : gets lamport_clock s1 = (Ok L1, s1)) by reflexivity.
  unfold create_vertex, move_vertex, set_property.
  rewrite !(bind_ok _ _ _ _ _ Hnew), !(bind_ok _ _ _ _ _ Hgets).
  rewrite !bind_ret_snd, !bind_ret_fst, !apply_move_op_lamport; simpl MoveVertex.timestamp.
  change (lamport_clock s1) with L1; rewrite N.max_id.
  split; [reflexivity|split; [reflexivity|split]].
  - rewrite (apply_property_op_stable (SetProperty _) eq_refl); reflexivity.
  - split; [destruct (fst (apply_op _ s1)); reflexivity|destruct (fst (apply_op _ s1)); reflexivity].
Qed.

(** [set_property] on a vertex the store holds, stepwise. *)
Lemma set_property_existing s vid key value v :
  cache_coherent s -> storage_get_vertex (vertices (storage s)) vid = Some v ->
  let op := SetVertexProperty.mk (OpId.new (peer_id s) (lamport_clock s)) vid key value false in
  let v' := EncodedVertex.mk vid (EncodedVertex.parent_id v) (EncodedVertex.idx v)
              (map_insert (EncodedVertex.properties v) key value) in
  exists s', set_property vid key value s = (Ok (OpId.new (peer_id s) (lamport_clock s)), s') /\
    vertices (storage s') = storage_put_vertex (vertices (storage s)) v' /\
    prop_log (storage s') = prop_log (storage s) ++ [op] /\
    move_log (storage s') = move_log (storage s) /\
    state_vector s' = add (state_vector s) (peer_id s) (lamport_clock s) /\
    lamport_clock s' = wrapping_add_u64 (lamport_clock s) 1.
Proof.
  intros Hc Hv op v'.
  pose proof (storage_get_vertex_id _ _ _ Hv) as Hid.
  set (s1 := with_lamport (wrapping_add_u64 (lamport_clock s) 1) s).
  assert (Hnew : new_op_id s = (Ok (OpId.new (peer_id s) (lamport_clock s)), s1)) by reflexivity.
  assert (Hc1 : cache_coherent s1) by exact Hc.
  destruct (get_vertex_coherent vid s1 Hc1) as (c & E & _).
  change (vertices (storage s1)) with (vertices (storage s)) in E; rewrite Hv in E.
  eassert (Hap : apply_property (SetVertexProperty.mk (OpId.new (peer_id s) (lamport_clock s))
                                   vid key value false) s1 = (Ok tt, _)).
  { unfold apply_property; cbn [SetVertexProperty.target_id].
    rewrite (bind_ok _ _ _ _ _ E); reflexivity. }
  eassert (Hop : apply_op (SetProperty (SetVertexProperty.mk (OpId.new (peer_id s) (lamport_clock s))
                                   vid key value false)) s1 = (Ok (OpId.new (peer_id s) (lamport_clock s)), _)).
  { unfold apply_op; rewrite (bind_ok _ _ _ _ _ Hap); reflexivity. }
  unfold set_property; rewrite (bind_ok _ _ _ _ _ Hnew), (bind_ok _ _ _ _ _ Hop).
  eexists; split; [reflexivity|].
  cbn -[add storage_put_vertex lru_put]; rewrite Hid.
  repeat split; reflexivity.
Qed.

(** Extra: on a reachable replica, [set_property(v, k, x)] on a vertex the
    store holds returns [OpId(peer, lamport)], and afterwards [get_vertex(v)]
    returns that vertex with property [k] set to [x] (its parent and index
    unchanged); the operation is appended to the property log. *)
Theorem set_property_then_get (s : RepTree) (vid : VertexId) (key : string)
  (value : VertexPropertyType.t) (v : EncodedVertex.t)
  (Hs : reachable s) (Hv : storage_get_vertex (vertices (storage s)) vid = Some v) :
  fst (set_property vid key value s) = Ok (OpId.new (peer_id s) (lamport_clock s)) /\
  fst (get_vertex vid (snd (set_property vid key value s))) =
    Ok (Some (EncodedVertex.mk vid (EncodedVertex.parent_id v) (EncodedVertex.idx v)
                (map_insert (EncodedVertex.properties v) key value))) /\
  prop_log (storage (snd (set_property vid key value s))) =
    prop_log (storage s) ++
    [SetVertexProperty.mk (OpId.new (peer_id s) (lamport_clock s)) vid key value false].
Proof.
  pose proof (reachable_coherent s Hs) as Hc.
  pose proof (keeps_set_property vid key value s Hc) as Hc'.
  destruct (set_property_existing s vid key value v Hc Hv) as (s' & E & Hvs & Hp & _).
  rewrite E in Hc' |- *; simpl in Hc' |- *.
  split; [reflexivity|split; [|exact Hp]].
  rewrite (get_vertex_reads_store vid s' Hc'), Hvs, storage_put_get; simpl.
  rewrite String.eqb_refl; reflexivity.
Qed.

Lemma set_property_then_get_witness :
  reachable (replica_after scenario_S2 fresh_replica) /\
  storage_get_vertex (vertices (storage (replica_after scenario_S2 fresh_replica))) "c1" =
    Some (EncodedVertex.mk "c1" (Some "root"%string) 0 []) /\
  fst (get_vertex "c1" (snd (set_property "c1" "k" VertexPropertyType.Null
                                (replica_after scenario_S2 fresh_replica)))) =
    Ok (Some (EncodedVertex.mk "c1" (Some "root"%string) 0 [("k", VertexPropertyType.Null)])).
Proof.
  assert (H : reachable (replica_after scenario_S2 fresh_replica))
    by (apply reachable_apply_ops; apply reachable_new).
  assert (Hv : storage_get_vertex (vertices (storage (replica_after scenario_S2 fresh_replica))) "c1" =
               Some (EncodedVertex.mk "c1" (Some "root"%string) 0 [])) by (vm_compute; reflexivity).
  split; [exact H|split; [exact Hv|]].
  exact (proj1 (proj2 (set_property_then_get _ "c1" "k" VertexPropertyType.Null _ H Hv))).
Defined.

(** [set_property] on a vertex the store lacks. *)
Lemma set_property_missing s vid key value :
  cache_coherent s -> storage_get_vertex (vertices (storage s)) vid = None ->
  exists c, set_property vid key value s =
    (Err (Error.VertexNotFound vid),
     with_cache c (with_lamport (wrapping_add_u64 (lamport_clock s) 1) s)).
Proof.
  intros Hc Hv.
  set (s1 := with_lamport (wrapping_add_u64 (lamport_clock s) 1) s).
  assert (Hnew : new_op_id s = (Ok (OpId.new (peer_id s) (lamport_clock s)), s1)) by reflexivity.
  destruct (get_vertex_coherent vid s1 Hc) as (c & E & _).
  change (vertices (storage s1)) with (vertices (storage s)) in E; rewrite Hv in E.
  exists c.
  assert (Hap : apply_property (SetVertexProperty.mk (OpId.new (peer_id s) (lamport_clock s))
                                  vid key value false) s1 =
                (Err (Error.VertexNotFound vid), with_cache c s1)).
  { unfold apply_property; cbn [SetVertexProperty.target_id].
    rewrite (bind_ok _ _ _ _ _ E); reflexivity. }
  assert (Hop : apply_op (SetProperty (SetVertexProperty.mk (OpId.new (peer_id s) (lamport_clock s))
                                   vid key value false)) s1 =
                (Err (Error.VertexNotFound vid), with_cache c s1)).
  { unfold apply_op; rewrite (bind_err _ _ _ _ _ Hap); reflexivity. }
  unfold set_property; rewrite (bind_ok _ _ _ _ _ Hnew), (bind_err _ _ _ _ _ Hop).
  reflexivity.
Qed.

(** Extra: on a reachable replica, [set_property] on a vertex the store does
    not hold fails with [VertexNotFound] for that id; it still consumes one
    lamport value, but leaves the store (vertices and both logs) and the
    state vector as they were. *)
Theorem set_property_missing_vertex (s : RepTree) (vid : VertexId) (key : string)
  (value : VertexPropertyType.t)
  (Hs : reachable s) (Hv : storage_get_vertex (vertices (storage s)) vid = None) :
  fst (set_property vid key value s) = Err (Error.VertexNotFound vid) /\
  storage (snd (set_property vid key value s)) = storage s /\
  state_vector (snd (set_property vid key value s)) = state_vector s /\
  lamport_clock (snd (set_property vid key value s)) = wrapping_add_u64 (lamport_clock s) 1.
Proof.
  destruct (set_property_missing s vid key value (reachable_coherent s Hs) Hv) as (c & E).
  rewrite E; repeat split.
Qed.

Lemma set_property_missing_vertex_witness :
  reachable (replica_after scenario_S2 fresh_replica) /\
  storage_get_vertex (vertices (storage (replica_after scenario_S2 fresh_replica))) "zz" = None /\
  fst (set_property "zz" "k" VertexPropertyType.Null (replica_after scenario_S2 fresh_replica)) =
    Err (Error.VertexNotFound "zz").
Proof.
  assert (H : reachable (replica_after scenario_S2 fresh_replica))
    by (apply reachable_apply_ops; apply reachable_new).
  assert (Hv : storage_get_vertex (vertices (storage (replica_after scenario_S2 fresh_replica))) "zz"
               = None) by (vm_compute; reflexivity).
  split; [exact H|split; [exact Hv|]].
  exact (proj1 (set_property_missing_vertex _ "zz" "k" VertexPropertyType.Null H Hv)).
Defined.

(** [apply_move] of a vertex the store lacks, under an existing parent. *)
Lemma apply_move_new_vertex (mv : MoveVertex.t) (s : RepTree) :
  cache_coherent s ->
  storage_get_vertex (vertices (storage s)) (MoveVertex.target_id mv) = None ->
  match MoveVertex.parent_id mv with
  | Some p => storage_get_vertex (vertices (storage s)) p <> None
  | None => True
  end ->
  exists s', apply_move mv s = (Ok tt, s') /\
    vertices (storage s') =
      storage_put_vertex (vertices (storage s))
        (EncodedVertex.mk (MoveVertex.target_id mv) (MoveVertex.parent_id mv) 0 []) /\
    move_log (storage s') = move_log (storage s) /\
    prop_log (storage s') = prop_log (storage s) /\
    state_vector s' = state_vector s /\
    lamport_clock s' = lamport_clock s /\
    peer_id s' = peer_id s.
Proof.
  intros Hc Ht Hp.
  destruct (get_vertex_coherent (MoveVertex.target_id mv) s Hc) as (c & E1 & Hc1).
  rewrite Ht in E1.
  unfold apply_move; rewrite (bind_ok _ _ _ _ _ E1).
  destruct (MoveVertex.parent_id mv) as [p|] eqn:Ep.
  - destruct (get_vertex_coherent p (with_cache c s) Hc1) as (c2 & E2 & _).
    change (vertices (storage (with_cache c s))) with (vertices (storage s)) in E2.
    destruct (storage_get_vertex (vertices (storage s)) p) as [w|] eqn:Ew; [|contradiction].
    eassert (Hpar : (parent <- get_vertex p ;;
                     if is_some parent then ret tt else throw (Error.VertexNotFound p))
                      (with_cache c s) = (Ok tt, _)).
    { rewrite (bind_ok _ _ _ _ _ E2); reflexivity. }
    rewrite (bind_ok _ _ _ _ _ Hpar).
    eexists; split; [reflexivity|]; cbn; repeat split; reflexivity.
  - eexists; split; [reflexivity|]; cbn; repeat split; reflexivity.
Qed.

Lemma create_vertex_new s id parent :
  cache_coherent s ->
  storage_get_vertex (vertices (storage s)) id = None ->
  match parent with
  | Some p => storage_get_vertex (vertices (storage s)) p <> None
  | None => True
  end ->
  exists s', create_vertex id parent s = (Ok id, s') /\
    vertices (storage s') =
      storage_put_vertex (vertices (storage s)) (EncodedVertex.mk id parent 0 []) /\
    move_log (storage s') =
      move_log (storage s) ++
      [MoveVertex.mk (OpId.new (peer_id s) (lamport_clock s)) id parent
         (wrapping_add_u64 (lamport_clock s) 1)] /\
    state_vector s' = add (state_vector s) (peer_id s) (lamport_clock s).
Proof.
  intros Hc Ht Hp.
  set (L1 := wrapping_add_u64 (lamport_clock s) 1).
  set (s1 := with_lamport L1 s).
  set (mv := MoveVertex.mk (OpId.new (peer_id s) (lamport_clock s)) id parent L1).
  assert (Hnew : new_op_id s = (Ok (OpId.new (peer_id s) (lamport_clock s)), s1)) by reflexivity.
  assert (Hgets : gets lamport_clock s1 = (Ok L1, s1)) by reflexivity.
  set (s2 := with_lamport (wrapping_add_u64 (N.max L1 L1) 1) s1).
  assert (Hupd : update_lamport_clock (MoveVertex.timestamp mv) s1 = (Ok tt, s2)) by reflexivity.
  destruct (apply_move_new_vertex mv s2 Hc Ht Hp) as (s3 & Emv & Hv3 & Hm3 & Hp3 & Hsv3 & _).
  eassert (Hop : apply_op (Move mv) s1 = (Ok (MoveVertex.id mv), _)).
  { unfold apply_op; rewrite (bind_ok _ _ _ _ _ Hupd), (bind_ok _ _ _ _ _ Emv); reflexivity. }
  unfold create_vertex; rewrite (bind_ok _ _ _ _ _ Hnew), (bind_ok _ _ _ _ _ Hgets).
  rewrite (bind_ok _ _ _ _ _ Hop).
  eexists; split; [reflexivity|]; cbn.
  rewrite Hv3, Hm3, Hsv3; repeat split; reflexivity.
Qed.

(** Extra: on a reachable replica, [create_vertex] of an id the store does not
    hold, with no parent or a parent the store holds, returns that id; the
    vertex is then read back by [get_vertex] with that parent, index 0 and no
    properties; the move is appended to the move log with the timestamp
    [lamport + 1], and the state vector records [(peer, lamport)]. *)
Theorem create_vertex_then_get (s : RepTree) (id : VertexId) (parent : option VertexId)
  (Hs : reachable s) (Hid : storage_get_vertex (vertices (storage s)) id = None)
  (Hp : match parent with
        | Some p => storage_get_vertex (vertices (storage s)) p <> None
        | None => True
        end) :
  fst (create_vertex id parent s) = Ok id /\
  fst (get_vertex id (snd (create_vertex id parent s))) =
    Ok (Some (EncodedVertex.mk id parent 0 [])) /\
  move_log (storage (snd (create_vertex id parent s))) =
    move_log (storage s) ++
    [MoveVertex.mk (OpId.new (peer_id s) (lamport_clock s)) id parent
       (wrapping_add_u64 (lamport_clock s) 1)] /\
  state_vector (snd (create_vertex id parent s)) = add (state_vector s) (peer_id s) (lamport_clock s).
Proof.
  pose proof (reachable_coherent s Hs) as Hc.
  pose proof (keeps_create_vertex id parent s Hc) as Hc'.
  destruct (create_vertex_new s id parent Hc Hid Hp) as (s' & E & Hv & Hm & Hsv).
  rewrite E in Hc' |- *; simpl in Hc' |- *.
  split; [reflexivity|split; [|split; assumption]].
  rewrite (get_vertex_reads_store id s' Hc'), Hv, storage_put_get; simpl.
  rewrite String.eqb_refl; reflexivity.
Qed.

Lemma create_vertex_then_get_witness :
  reachable (replica_after scenario_S2 fresh_replica) /\
  fst (get_vertex "c3" (snd (create_vertex "c3" (Some "root"%string)
                               (replica_after scenario_S2 fresh_replica)))) =
    Ok (Some (EncodedVertex.mk "c3" (Some "root"%string) 0 [])).
Proof.
  assert (H : reachable (replica_after scenario_S2 fresh_replica))
    by (apply reachable_apply_ops; apply reachable_new).
  split; [exact H|].
  refine (proj1 (proj2 (create_vertex_then_get _ "c3" (Some "root"%string) H _ _))).
  - vm_compute; reflexivity.
  - vm_compute; discriminate.
Defined.

(* ------------------------------------------------------------------ *)
(** ** [TreeState] *)

Lemma map_get_in {V : Type} (m : list (string * V)) k v :
  map_get m k = Some v -> In v (map snd m).
Proof.
  induction m as [|[k' v'] m IH]; simpl; [discriminate|].
  destruct (String.eqb k k'); [intros H; injection H as ->; left; reflexivity|].
  intros H; right; exact (IH H).
Qed.

Lemma map_insert_length {V : Type} (m : list (string * V)) k v :
  length (map_insert m k v) = (length m + (if is_some (map_get m k) then 0 else 1))%nat.
Proof.
  induction m as [|[k' v'] m IH]; simpl; [reflexivity|].
  destruct (String.eqb k k'); simpl; [lia|rewrite IH; reflexivity].
Qed.

Lemma fold_left_max_acc (l : list Z) (i : Z) : (i <= fold_left Z.max l i)%Z.
Proof.
  revert i; induction l as [|j l IH]; intros i; simpl; [lia|].
  apply Z.le_trans with (Z.max i j); [lia|apply IH].
Qed.

Lemma fold_left_max_ge (l : list Z) (i x : Z) :
  In x (i :: l) -> (x <= fold_left Z.max l i)%Z.
Proof.
  revert i; induction l as [|j l IH]; intros i Hx; simpl in *.
  - destruct Hx as [->|[]]; lia.
  - destruct Hx as [->|[->|Hx]].
    + apply Z.le_trans with (Z.max x j); [lia|apply fold_left_max_acc].
    + apply Z.le_trans with (Z.max i x); [lia|apply fold_left_max_acc].
    + apply IH; right; exact Hx.
Qed.

Lemma fold_left_max_in (l : list Z) (i : Z) : In (fold_left Z.max l i) (i :: l).
Proof.
  revert i; induction l as [|j l IH]; intros i; simpl; [left; reflexivity|].
  destruct (IH (Z.max i j)) as [E|E].
  - rewrite <- E; destruct (Z.max_spec i j) as [[_ ->]|[_ ->]]; [right; left|left]; reflexivity.
  - right; right; exact E.
Qed.

Lemma wrap_small_i64 a : (- 2 ^ 63 <= a < I64_MAX)%Z -> wrapping_add_i64 a 1 = (a + 1)%Z.
Proof.
  unfold wrapping_add_i64, I64_MAX; intros H.
  rewrite Z.mod_small by lia; lia.
Qed.

(** The index [apply_move] gives under [Some p]. *)
Lemma tree_state_new_idx_gt ts p w :
  Forall (fun w => - 2 ^ 63 <= EncodedVertex.idx w < I64_MAX)%Z (TreeState.get_children ts p) ->
  In w (TreeState.get_children ts p) ->
  (EncodedVertex.idx w <
   wrapping_add_i64
     (match map EncodedVertex.idx (filter (parent_is p) (map snd (TreeState.vertices ts))) with
      | [] => 0%Z
      | i :: is => fold_left Z.max is i
      end) 1)%Z.
Proof.
  unfold TreeState.get_children; intros Hb Hw.
  destruct (filter (parent_is p) (map snd (TreeState.vertices ts))) as [|u us] eqn:Ef;
    [destruct Hw|].
  simpl.
  assert (Hin : In (EncodedVertex.idx w) (EncodedVertex.idx u :: map EncodedVertex.idx us))
    by (change (In (EncodedVertex.idx w) (map EncodedVertex.idx (u :: us))); apply in_map; exact Hw).
  pose proof (fold_left_max_ge _ _ _ Hin) as Hge.
  destruct (fold_left_max_in (map EncodedVertex.idx us) (EncodedVertex.idx u)) as [E|E].
  - rewrite <- E in *; rewrite wrap_small_i64; [lia|].
    rewrite Forall_forall in Hb; apply (Hb u); left; reflexivity.
  - apply in_map_iff in E; destruct E as (u' & Eu & Hu').
    rewrite wrap_small_i64; [lia|]; rewrite <- Eu.
    rewrite Forall_forall in Hb; apply (Hb u'); right; exact Hu'.
Qed.

(** Extra: [TreeState::apply_move] puts the target under the new parent and
    leaves every other vertex as it was; with no parent the target gets index
    0, and under a parent [p] it gets an index strictly above that of every
    other child of [p], provided the children's indices before the move are
    within [i64] and below its maximum (so that [max + 1] does not overflow). *)
Theorem tree_state_apply_move_idx (ts : TreeState.t) (op : MoveVertex.t)
  (Hb : match MoveVertex.parent_id op with
        | Some p => Forall (fun w => - 2 ^ 63 <= EncodedVertex.idx w < I64_MAX)%Z
                      (TreeState.get_children ts p)
        | None => True
        end) :
  (forall k, k <> MoveVertex.target_id op ->
     TreeState.get_vertex (TreeState.apply_move ts op) k = TreeState.get_vertex ts k) /\
  exists t', TreeState.get_vertex (TreeState.apply_move ts op) (MoveVertex.target_id op) = Some t' /\
    EncodedVertex.parent_id t' = MoveVertex.parent_id op /\
    match MoveVertex.parent_id op with
    | None => EncodedVertex.idx t' = 0%Z
    | Some p => forall k w, k <> MoveVertex.target_id op ->
        TreeState.get_vertex (TreeState.apply_move ts op) k = Some w ->
        parent_is p w = true -> (EncodedVertex.idx w < EncodedVertex.idx t')%Z
    end.
Proof.
  assert (Hother : forall k, k <> MoveVertex.target_id op ->
     TreeState.get_vertex (TreeState.apply_move ts op) k = TreeState.get_vertex ts k).
  { intros k Hk; unfold TreeState.get_vertex, TreeState.apply_move; simpl.
    apply String.eqb_neq in Hk.
    destruct (map_get (TreeState.vertices ts) (MoveVertex.target_id op));
      rewrite map_get_insert, Hk; reflexivity. }
  split; [exact Hother|].
  unfold TreeState.get_vertex at 1; unfold TreeState.apply_move at 1; cbn [TreeState.vertices].
  match goal with
  | |- context [map_get (match ?o with Some _ => _ | None => _ end) _] =>
      destruct o as [vertex|]
  end.
  all: rewrite map_get_insert, String.eqb_refl; eexists; split; [reflexivity|]; simpl.
  all: split; [reflexivity|].
  all: destruct (MoveVertex.parent_id op) as [p|]; [|reflexivity].
  all: intros k w Hk Hw Hpw; rewrite Hother in Hw by exact Hk.
  all: apply (tree_state_new_idx_gt ts p w Hb).
  all: unfold TreeState.get_children; apply filter_In; split; [|exact Hpw].
  all: exact (map_get_in _ _ _ Hw).
Qed.

Lemma tree_state_apply_move_idx_witness :
  Forall (fun w => - 2 ^ 63 <= EncodedVertex.idx w < I64_MAX)%Z
    (TreeState.get_children tree_state_ab "r") /\
  exists t',
    TreeState.get_vertex
      (TreeState.apply_move tree_state_ab (MoveVertex.mk (OpId.new "p" 3) "a" (Some "r"%string) 3))
      "a" = Some t' /\ (2 < EncodedVertex.idx t')%Z.
Proof.
  assert (Hb : Forall (fun w => - 2 ^ 63 <= EncodedVertex.idx w < I64_MAX)%Z
                 (TreeState.get_children tree_state_ab "r")).
  { rewrite Forall_forall; intros w Hw; vm_compute in Hw.
    destruct Hw as [<-|[<-|[]]]; unfold I64_MAX; simpl; lia. }
  split; [exact Hb|].
  destruct (tree_state_apply_move_idx _ (MoveVertex.mk (OpId.new "p" 3) "a" (Some "r"%string) 3) Hb)
    as [_ [t' [Ht' [_ Hgt]]]].
  exists t'; split; [exact Ht'|].
  exact (Hgt "b" (EncodedVertex.mk "b" (Some "r"%string) 2 []) ltac:(discriminate)
           ltac:(vm_compute; reflexivity) ltac:(vm_compute; reflexivity)).
Defined.

Lemma set_insert_In s x y : In y (TreeState.set_insert s x) <-> y = x \/ In y s.
Proof.
  unfold TreeState.set_insert.
  destruct (existsb (String.eqb x) s) eqn:E.
  - apply existsb_exists in E; destruct E as (z & Hz & Exz); apply String.eqb_eq in Exz; subst z.
    split; [intros H; right; exact H|intros [->|H]; assumption].
  - rewrite in_app_iff; simpl; intuition congruence.
Qed.

Lemma set_insert_NoDup s x : NoDup s -> NoDup (TreeState.set_insert s x).
Proof.
  unfold TreeState.set_insert; intros Hs.
  destruct (existsb (String.eqb x) s) eqn:E; [exact Hs|].
  apply NoDup_app; [exact Hs|constructor; [intros []|constructor]|].
  intros y Hy [Hxy|[]]; subst y.
  assert (existsb (String.eqb x) s = true)
    by (apply existsb_exists; exists x; split; [exact Hy|apply String.eqb_refl]).
  congruence.
Qed.

Lemma tree_state_set_property_spec ts vid key value :
  fst (TreeState.set_property ts vid key value) = is_some (TreeState.get_vertex ts vid) /\
  (TreeState.get_vertex ts vid = None -> snd (TreeState.set_property ts vid key value) = ts) /\
  TreeState.len (snd (TreeState.set_property ts vid key value)) = TreeState.len ts /\
  (TreeState.get_vertex ts vid <> None ->
     In vid (TreeState.dirty (snd (TreeState.set_property ts vid key value)))) /\
  (forall id, In id (TreeState.dirty ts) ->
     In id (TreeState.dirty (snd (TreeState.set_property ts vid key value)))) /\
  forall q, TreeState.get_vertex (snd (TreeState.set_property ts vid key value)) q =
    if String.eqb q vid then
      option_map (fun v => EncodedVertex.mk (EncodedVertex.id v) (EncodedVertex.parent_id v)
                             (EncodedVertex.idx v)
                             (map_insert (EncodedVertex.properties v) key value))
        (TreeState.get_vertex ts vid)
    else TreeState.get_vertex ts q.
Proof.
  unfold TreeState.set_property, TreeState.get_vertex, TreeState.len.
  destruct (map_get (TreeState.vertices ts) vid) as [v|] eqn:Ev; simpl.
  - split; [reflexivity|split; [discriminate|split; [|split; [|split]]]].
    + rewrite map_insert_length, Ev; simpl; apply Nat.add_0_r.
    + intros _; apply set_insert_In; left; reflexivity.
    + intros id Hid; apply set_insert_In; right; exact Hid.
    + intros q; rewrite map_get_insert; destruct (String.eqb_spec q vid) as [->|]; reflexivity.
  - split; [reflexivity|split; [reflexivity|split; [reflexivity|split; [intros []; reflexivity|]]]].
    split; [intros id Hid; exact Hid|].
    intros q; destruct (String.eqb_spec q vid) as [->|]; [exact Ev|reflexivity].
Qed.

(** Extra: [TreeState::set_property] returns whether the vertex exists; when
    it does not, the state is unchanged; when it does, only that vertex's
    property [key] is set (to [value]), the vertex is marked dirty, and the
    number of vertices stays the same. *)
Theorem tree_state_set_property (ts : TreeState.t) (vid key : string)
  (value : VertexPropertyType.t) :
  fst (TreeState.set_property ts vid key value) = is_some (TreeState.get_vertex ts vid) /\
  (TreeState.get_vertex ts vid = None -> snd (TreeState.set_property ts vid key value) = ts) /\
  TreeState.len (snd (TreeState.set_property ts vid key value)) = TreeState.len ts /\
  (TreeState.get_vertex ts vid <> None ->
     In vid (TreeState.dirty (snd (TreeState.set_property ts vid key value)))) /\
  forall q, TreeState.get_vertex (snd (TreeState.set_property ts vid key value)) q =
    if String.eqb q vid then
      option_map (fun v => EncodedVertex.mk (EncodedVertex.id v) (EncodedVertex.parent_id v)
                             (EncodedVertex.idx v)
                             (map_insert (EncodedVertex.properties v) key value))
        (TreeState.get_vertex ts vid)
    else TreeState.get_vertex ts q.
Proof.
  destruct (tree_state_set_property_spec ts vid key value) as (H1 & H2 & H3 & H4 & _ & H6).
  repeat split; assumption.
Qed.

Lemma tree_state_apply_move_dirty ts op :
  In (MoveVertex.target_id op) (TreeState.dirty (TreeState.apply_move ts op)) /\
  (forall id, In id (TreeState.dirty ts) -> In id (TreeState.dirty (TreeState.apply_move ts op))) /\
  (forall id, In id (TreeState.dirty (TreeState.apply_move ts op)) ->
     id = MoveVertex.target_id op \/ In id (TreeState.dirty ts)) /\
  TreeState.get_vertex (TreeState.apply_move ts op) (MoveVertex.target_id op) <> None.
Proof.
  unfold TreeState.apply_move, TreeState.get_vertex; simpl.
  split; [apply set_insert_In; left; reflexivity|].
  split; [intros id H; apply set_insert_In; right; exact H|].
  split; [intros id H; apply set_insert_In; exact H|].
  destruct (map_get (TreeState.vertices ts) (MoveVertex.target_id op));
    rewrite map_get_insert, String.eqb_refl; discriminate.
Qed.

Lemma tree_state_apply_move_keeps ts op k :
  TreeState.get_vertex ts k <> None -> TreeState.get_vertex (TreeState.apply_move ts op) k <> None.
Proof.
  unfold TreeState.apply_move, TreeState.get_vertex; simpl.
  destruct (map_get (TreeState.vertices ts) (MoveVertex.target_id op));
    rewrite map_get_insert; destruct (String.eqb k (MoveVertex.target_id op)); easy.
Qed.

Lemma dirty_vertices_length ts :
  TreeState.dirty_ok ts -> length (TreeState.dirty_vertices ts) = length (TreeState.dirty ts).
Proof.
  unfold TreeState.dirty_ok, TreeState.dirty_vertices.
  generalize (TreeState.dirty ts); intros l; induction l as [|id l IH]; intros H; [reflexivity|].
  simpl; rewrite length_app, IH by (intros i Hi; apply H; right; exact Hi).
  destruct (map_get (TreeState.vertices ts) id) eqn:E; [reflexivity|].
  exfalso; exact (H id (or_introl eq_refl) E).
Qed.

Lemma tree_state_reachable_inv ts :
  tree_state_reachable ts -> NoDup (TreeState.dirty ts) /\ TreeState.dirty_ok ts.
Proof.
  unfold TreeState.dirty_ok.
  induction 1 as [|ts op _ [Hnd Hok]|ts vid key value _ [Hnd Hok]|ts _ [Hnd Hok]].
  - split; [constructor|intros id []].
  - split; [apply set_insert_NoDup; exact Hnd|].
    destruct (tree_state_apply_move_dirty ts op) as (_ & _ & Hin & Ht).
    intros id Hid; destruct (Hin id Hid) as [->|Hid']; [exact Ht|].
    apply tree_state_apply_move_keeps; exact (Hok id Hid').
  - unfold TreeState.set_property.
    destruct (map_get (TreeState.vertices ts) vid) as [v|] eqn:Ev; simpl; [|split; assumption].
    split; [apply set_insert_NoDup; exact Hnd|].
    intros id Hid; apply set_insert_In in Hid; rewrite map_get_insert.
    destruct (String.eqb_spec id vid) as [->|Hne]; [discriminate|].
    destruct Hid as [->|Hid]; [contradiction|exact (Hok id Hid)].
  - split; [constructor|intros id []].
Qed.

(** Extra: in every state a [TreeState] reaches from [new] through
    [apply_move], [set_property] and [clear_dirty], each dirty id names a
    vertex of the state, so [dirty()] returns exactly one vertex per dirty id;
    and a moved vertex is always dirty afterwards. *)
Theorem tree_state_dirty_complete (ts : TreeState.t) (Hts : tree_state_reachable ts) :
  (forall id, In id (TreeState.dirty ts) -> TreeState.get_vertex ts id <> None) /\
  length (TreeState.dirty_vertices ts) = length (TreeState.dirty ts) /\
  forall op, In (MoveVertex.target_id op) (TreeState.dirty (TreeState.apply_move ts op)).
Proof.
  destruct (tree_state_reachable_inv ts Hts) as [_ Hok].
  split; [exact Hok|split; [exact (dirty_vertices_length ts Hok)|]].
  intros op; exact (proj1 (tree_state_apply_move_dirty ts op)).
Qed.

Lemma tree_state_dirty_complete_witness :
  tree_state_reachable (snd (TreeState.set_property (TreeState.apply_move TreeState.new
      (MoveVertex.mk (OpId.new "p" 1) "a" None 1)) "a" "k" VertexPropertyType.Null)) /\
  length (TreeState.dirty_vertices (snd (TreeState.set_property (TreeState.apply_move TreeState.new
      (MoveVertex.mk (OpId.new "p" 1) "a" None 1)) "a" "k" VertexPropertyType.Null))) = 1%nat.
Proof.
  assert (H : tree_state_reachable (snd (TreeState.set_property (TreeState.apply_move TreeState.new
      (MoveVertex.mk (OpId.new "p" 1) "a" None 1)) "a" "k" VertexPropertyType.Null)))
    by (apply ts_reachable_set_property, ts_reachable_apply_move, ts_reachable_new).
  split; [exact H|].
  rewrite (proj1 (proj2 (tree_state_dirty_complete _ H))); vm_compute; reflexivity.
Defined.

(** Extra: [TreeState::apply_move] adds a vertex to the state exactly when
    the target is not yet in it, so [len] grows by one for a new target and
    stays the same for a known one, and the state is no longer empty. *)
Theorem tree_state_apply_move_len (ts : TreeState.t) (op : MoveVertex.t) :
  TreeState.len (TreeState.apply_move ts op) =
    (TreeState.len ts +
     if is_some (TreeState.get_vertex ts (MoveVertex.target_id op)) then 0 else 1)%nat /\
  TreeState.is_empty (TreeState.apply_move ts op) = false.
Proof.
  unfold TreeState.len, TreeState.is_empty, TreeState.apply_move, TreeState.get_vertex; simpl.
  destruct (map_get (TreeState.vertices ts) (MoveVertex.target_id op)) eqn:E;
    rewrite map_insert_length, E; simpl.
  - split; [reflexivity|].
    destruct (TreeState.vertices ts) as [|[k v] m]; [discriminate|]; simpl.
    destruct (String.eqb (MoveVertex.target_id op) k); reflexivity.
  - split; [reflexivity|].
    destruct (TreeState.vertices ts) as [|[k v] m]; [reflexivity|]; simpl.
    destruct (String.eqb (MoveVertex.target_id op) k); reflexivity.
Qed.

(* ------------------------------------------------------------------ *)
(** ** The vertex table *)

Lemma storage_put_ids rows v :
  map EncodedVertex.id (storage_put_vertex rows v) =
  filter (fun k => negb (String.eqb k (EncodedVertex.id v))) (map EncodedVertex.id rows)
  ++ [EncodedVertex.id v].
Proof.
  unfold storage_put_vertex; rewrite map_app; f_equal.
  induction rows as [|w rows IH]; simpl; [reflexivity|].
  destruct (String.eqb (EncodedVertex.id w) (EncodedVertex.id v)); simpl; rewrite IH; reflexivity.
Qed.

Lemma NoDup_filter_app_self (l : list string) (x : string) :
  NoDup l -> NoDup (filter (fun k => negb (String.eqb k x)) l ++ [x]).
Proof.
  intros H; apply NoDup_app.
  - apply NoDup_filter; exact H.
  - constructor; [intros []|constructor].
  - intros a Ha [Hx|[]]; subst a.
    apply filter_In in Ha; destruct Ha as [_ Ha]; rewrite String.eqb_refl in Ha; discriminate.
Qed.

(** Extra: [put_vertex] followed by [get_vertex] (the [INSERT OR REPLACE]
    and [SELECT ... WHERE id = ?] of the vertex table) reads back the vertex
    just written under its id and leaves every other id as it was; the
    table keeps at most one row per id. *)
Theorem storage_put_then_get (rows : list EncodedVertex.t) (v : EncodedVertex.t) :
  (forall k, storage_get_vertex (storage_put_vertex rows v) k =
     if String.eqb (EncodedVertex.id v) k then Some v else storage_get_vertex rows k) /\
  (NoDup (map EncodedVertex.id rows) ->
   NoDup (map EncodedVertex.id (storage_put_vertex rows v))).
Proof.
  split; [intros k; apply storage_put_get|].
  intros H; rewrite storage_put_ids; apply NoDup_filter_app_self; exact H.
Qed.

Lemma insert_by_idx_perm v vs : Permutation (insert_by_idx v vs) (v :: vs).
Proof.
  induction vs as [|w vs IH]; simpl; [reflexivity|].
  destruct (_ <=? _)%Z; [reflexivity|].
  rewrite IH; apply perm_swap.
Qed.

Lemma sort_by_idx_perm vs : Permutation (sort_by_idx vs) vs.
Proof.
  induction vs as [|v vs IH]; simpl; [reflexivity|].
  rewrite insert_by_idx_perm, IH; reflexivity.
Qed.

Lemma insert_by_idx_sorted v vs :
  LocallySorted idx_le vs -> LocallySorted idx_le (insert_by_idx v vs).
Proof.
  induction 1 as [|w|w u vs Hs IH Hwu]; simpl.
  - constructor.
  - unfold idx_le; destruct (Z.leb_spec (EncodedVertex.idx v) (EncodedVertex.idx w));
      repeat constructor; unfold idx_le; lia.
  - unfold idx_le in *.
    destruct (Z.leb_spec (EncodedVertex.idx v) (EncodedVertex.idx w)).
    + constructor; [constructor; assumption|exact H].
    + simpl in IH.
      destruct (Z.leb_spec (EncodedVertex.idx v) (EncodedVertex.idx u)).
      * constructor; [exact IH|lia].
      * constructor; [exact IH|exact Hwu].
Qed.

Lemma sort_by_idx_sorted vs : LocallySorted idx_le (sort_by_idx vs).
Proof.
  induction vs as [|v vs IH]; simpl; [constructor|].
  apply insert_by_idx_sorted; exact IH.
Qed.

Lemma firstn_sorted (n : nat) (vs : list EncodedVertex.t) :
  LocallySorted idx_le vs -> LocallySorted idx_le (firstn n vs).
Proof.
  intros H; revert n; induction H as [|w|w u vs Hs IH Hwu]; intros n.
  - rewrite firstn_nil; constructor.
  - destruct n; simpl; [|rewrite firstn_nil]; constructor.
  - destruct n as [|[|n]]; simpl; [constructor|constructor|].
    specialize (IH (S n)); simpl in IH; constructor; assumption.
Qed.

Lemma map_idx_sorted (vs : list EncodedVertex.t) :
  LocallySorted idx_le vs ->
  LocallySorted Z.le (map (fun v => (EncodedVertex.idx v)) vs).
Proof.
  induction 1 as [|w|w u vs Hs IH Hwu]; simpl; constructor; assumption.
Qed.

Lemma get_children_page_in rows p after limit id i :
  In (id, i) (get_children_page rows p after limit) ->
  exists v, In v rows /\ EncodedVertex.id v = id /\ EncodedVertex.idx v = i /\
    EncodedVertex.parent_id v = Some p /\
    match after with Some a => (a < i)%Z | None => True end.
Proof.
  unfold get_children_page; intros Hin.
  apply in_map_iff in Hin; destruct Hin as (v & Ev & Hv).
  injection Ev as <- <-.
  match type of Hv with In v (firstn limit (sort_by_idx ?sel)) =>
    assert (Hs : In v (sort_by_idx sel)) by
      (rewrite <- (firstn_skipn limit (sort_by_idx sel)); apply in_or_app; left; exact Hv)
  end.
  pose proof (Permutation_in _ (sort_by_idx_perm _) Hs) as Hv'.
  apply filter_In in Hv'; destruct Hv' as [Hrow Hsel].
  apply andb_prop in Hsel; destruct Hsel as [Hp Ha].
  exists v; split; [exact Hrow|split; [reflexivity|split; [reflexivity|split]]].
  - unfold parent_is in Hp; destruct (EncodedVertex.parent_id v) as [q|]; [|discriminate].
    apply String.eqb_eq in Hp; subst q; reflexivity.
  - destruct after as [a|]; [apply Z.ltb_lt; exact Ha|exact I].
Qed.

Lemma get_children_page_sorted rows p after limit :
  LocallySorted Z.le (map snd (get_children_page rows p after limit)).
Proof.
  unfold get_children_page; rewrite map_map; simpl.
  apply map_idx_sorted, firstn_sorted, sort_by_idx_sorted.
Qed.

(** Extra: [get_children_page(p, after, limit)] returns
    [min(limit, n)] entries, [n] the number of rows under [p] (with index
    above [after] when given); each entry is the id and index of such a row,
    and the indices come in non-decreasing order. *)
Theorem get_children_page_spec (rows : list EncodedVertex.t) (p : string)
  (after : option Z) (limit : nat) :
  let sel v := parent_is p v && match after with
                                | Some a => (a <? EncodedVertex.idx v)%Z
                                | None => true
                                end in
  length (get_children_page rows p after limit) = Nat.min limit (length (filter sel rows)) /\
  (forall id i, In (id, i) (get_children_page rows p after limit) ->
     exists v, In v rows /\ EncodedVertex.id v = id /\ EncodedVertex.idx v = i /\
       EncodedVertex.parent_id v = Some p /\
       match after with Some a => (a < i)%Z | None => True end) /\
  LocallySorted Z.le (map snd (get_children_page rows p after limit)).
Proof.
  intros sel; split; [|split].
  - unfold get_children_page; fold sel.
    rewrite length_map, length_firstn, sort_by_idx_length; reflexivity.
  - apply get_children_page_in.
  - apply get_children_page_sorted.
Qed.

Lemma hydrate_coherent refs : forall s,
  cache_coherent s ->
  exists s', hydrate refs s = (Ok (lookup_refs (vertices (storage s)) refs), s') /\
    storage s' = storage s /\ cache_coherent s'.
Proof.
  induction refs as [|[id i] refs IH]; intros s Hc; simpl.
  - exists s; split; [reflexivity|split; [reflexivity|exact Hc]].
  - destruct (get_vertex_coherent id s Hc) as (c & E & Hc1).
    destruct (IH _ Hc1) as (s2 & E2 & Hst & Hc2).
    exists s2.
    rewrite (bind_ok _ _ _ _ _ E), (bind_ok _ _ _ _ _ E2).
    split; [|split; [exact Hst|exact Hc2]].
    simpl in *; destruct (storage_get_vertex (vertices (storage s)) id); reflexivity.
Qed.

Lemma storage_get_vertex_in rows k v : storage_get_vertex rows k = Some v -> In v rows.
Proof.
  induction rows as [|w rows IH]; simpl; [discriminate|].
  destruct (String.eqb (EncodedVertex.id w) k); [intros H; injection H as ->; left; reflexivity|].
  intros H; right; exact (IH H).
Qed.

Lemma storage_get_vertex_nodup rows v :
  NoDup (map EncodedVertex.id rows) -> In v rows ->
  storage_get_vertex rows (EncodedVertex.id v) = Some v.
Proof.
  induction rows as [|w rows IH]; simpl; [intros _ []|].
  intros Hnd Hin; inversion Hnd as [|? ? Hw Hnd']; subst.
  destruct Hin as [->|Hin]; [rewrite String.eqb_refl; reflexivity|].
  destruct (String.eqb_spec (EncodedVertex.id w) (EncodedVertex.id v)) as [Ew|]; [|exact (IH Hnd' Hin)].
  exfalso; apply Hw; rewrite Ew; apply in_map; exact Hin.
Qed.

Lemma lookup_refs_page rows p :
  NoDup (map EncodedVertex.id rows) ->
  let refs := get_children_page rows p None 1000 in
  length (lookup_refs rows refs) = length refs /\
  forall v, In v (lookup_refs rows refs) -> In v rows /\ EncodedVertex.parent_id v = Some p.
Proof.
  intros Hnd refs.
  assert (Hrefs : forall r, In r refs ->
            exists v, storage_get_vertex rows (fst r) = Some v /\ EncodedVertex.parent_id v = Some p).
  { intros [id i] Hr.
    destruct (get_children_page_in rows p None 1000 id i Hr) as (v & Hv & <- & _ & Hp & _).
    exists v; split; [exact (storage_get_vertex_nodup rows v Hnd Hv)|exact Hp]. }
  unfold lookup_refs; clearbody refs; split.
  - induction refs as [|r refs IH]; [reflexivity|].
    cbn [flat_map]; rewrite length_app.
    destruct (Hrefs r (or_introl eq_refl)) as (v & Ev & _); rewrite Ev.
    cbn [length Nat.add]; f_equal; apply IH; intros r' Hr'; apply Hrefs; right; exact Hr'.
  - intros v Hv; apply in_flat_map in Hv; destruct Hv as (r & Hr & Hv).
    destruct (Hrefs r Hr) as (w & Ew & Hp); rewrite Ew in Hv.
    destruct Hv as [<-|[]]; split; [exact (storage_get_vertex_in _ _ _ Ew)|exact Hp].
Qed.

Lemma sorted_idx_map vs :
  LocallySorted idx_le vs -> LocallySorted Z.le (map EncodedVertex.idx vs).
Proof. induction 1; simpl; constructor; assumption. Qed.

(** Extra: on a reachable replica whose vertex table holds one row per id,
    [get_children(p)] succeeds and returns the vertices stored under [p],
    one per entry of the first page of [get_children_page(p, None, 1000)]
    (so at most 1000), in non-decreasing index order; it leaves the store
    unchanged. *)
Theorem get_children_returns_children (s : RepTree) (p : string) (Hs : reachable s)
  (Hnd : NoDup (map EncodedVertex.id (vertices (storage s)))) :
  exists l, fst (get_children p s) = Ok l /\
    length l = length (get_children_page (vertices (storage s)) p None 1000) /\
    (length l <= 1000)%nat /\
    (forall v, In v l -> In v (vertices (storage s)) /\ EncodedVertex.parent_id v = Some p) /\
    LocallySorted Z.le (map EncodedVertex.idx l) /\
    storage (snd (get_children p s)) = storage s.
Proof.
  pose proof (reachable_coherent s Hs) as Hc.
  set (refs := get_children_page (vertices (storage s)) p None 1000).
  assert (Hpage : vertices_children_page p None 1000 s = (Ok refs, s)) by reflexivity.
  destruct (hydrate_coherent refs s Hc) as (s2 & E2 & Hst & _).
  destruct (lookup_refs_page (vertices (storage s)) p Hnd) as [Hlen Hin]; fold refs in Hlen, Hin.
  exists (sort_by_idx (lookup_refs (vertices (storage s)) refs)).
  unfold get_children; rewrite (bind_ok _ _ _ _ _ Hpage), (bind_ok _ _ _ _ _ E2); simpl.
  split; [reflexivity|split; [|split; [|split; [|split; [apply sorted_idx_map, sort_by_idx_sorted|exact Hst]]]]].
  - rewrite sort_by_idx_length; exact Hlen.
  - rewrite sort_by_idx_length, Hlen; unfold refs, get_children_page.
    rewrite length_map, length_firstn; apply Nat.le_min_l.
  - intros v Hv; apply Hin; exact (Permutation_in _ (sort_by_idx_perm _) Hv).
Qed.

Lemma get_children_returns_children_witness :
  reachable (replica_after scenario_S2 fresh_replica) /\
  NoDup (map EncodedVertex.id (vertices (storage (replica_after scenario_S2 fresh_replica)))) /\
  exists l, fst (get_children "root" (replica_after scenario_S2 fresh_replica)) = Ok l /\
    length l = 2%nat.
Proof.
  assert (H : reachable (replica_after scenario_S2 fresh_replica))
    by (apply reachable_apply_ops; apply reachable_new).
  assert (Hnd : NoDup (map EncodedVertex.id (vertices (storage (replica_after scenario_S2 fresh_replica))))).
  { vm_compute.
    repeat constructor; simpl; intuition discriminate. }
  split; [exact H|split; [exact Hnd|]].
  destruct (get_children_returns_children _ "root" H Hnd) as (l & E & Hl & _).
  exists l; split; [exact E|rewrite Hl; vm_compute; reflexivity].
Defined.

(* ------------------------------------------------------------------ *)
(** ** [StateVector::diff] at its edges *)

Lemma diff_step_within k t x y :
  Range.start x <= Range.end_ x -> In y (diff_step k t x) -> range_within x y.
Proof.
  unfold diff_step, range_within; intros Hx.
  destruct (N.ltb_spec (Range.end_ x) (Range.start t));
    [intros [<-|[]]; lia|].
  destruct (N.ltb_spec (Range.end_ t) (Range.start x));
    [intros [<-|[]]; lia|].
  intros Hy; apply in_app_or in Hy; destruct Hy as [Hy|Hy].
  - destruct (N.ltb_spec (Range.start x) (Range.start t)); [|destruct Hy].
    destruct Hy as [<-|[]]; simpl; lia.
  - destruct (N.ltb_spec (Range.end_ t) (Range.end_ x)); [|destruct Hy].
    destruct Hy as [<-|[]]; simpl; lia.
Qed.

Lemma range_within_trans x y z : range_within x y -> range_within y z -> range_within x z.
Proof. unfold range_within; lia. Qed.

Lemma diff_step_inside k x :
  Range.start x <= Range.end_ x -> forall y, range_within x y -> diff_step k x y = [].
Proof.
  unfold range_within, diff_step; intros Hx y Hy.
  destruct (N.ltb_spec (Range.end_ y) (Range.start x)); [lia|].
  destruct (N.ltb_spec (Range.end_ x) (Range.start y)); [lia|].
  destruct (N.ltb_spec (Range.start y) (Range.start x)); [lia|].
  destruct (N.ltb_spec (Range.end_ x) (Range.end_ y)); [lia|reflexivity].
Qed.

Lemma diff_fold_within k r theirs : forall remaining,
  Range.start r <= Range.end_ r ->
  (forall y, In y remaining -> range_within r y) ->
  forall y, In y (fold_left (fun remaining their_range =>
                     flat_map (diff_step k their_range) remaining) theirs remaining) ->
  range_within r y.
Proof.
  induction theirs as [|t theirs IH]; intros remaining Hr Hrem; simpl; [exact Hrem|].
  apply IH; [exact Hr|].
  intros y Hy; apply in_flat_map in Hy; destruct Hy as (x & Hx & Hy).
  pose proof (Hrem x Hx) as Hrx.
  apply (range_within_trans r x y Hrx).
  apply (diff_step_within k t x y); [unfold range_within in Hrx; lia|exact Hy].
Qed.

Lemma diff_fold_nil k theirs :
  fold_left (fun remaining their_range => flat_map (diff_step k their_range) remaining) theirs [] = [].
Proof. induction theirs as [|t theirs IH]; simpl; [reflexivity|exact IH]. Qed.

Lemma diff_fold_removed k r theirs : forall remaining,
  Range.start r <= Range.end_ r -> In r theirs ->
  (forall y, In y remaining -> range_within r y) ->
  fold_left (fun remaining their_range =>
               flat_map (diff_step k their_range) remaining) theirs remaining = [].
Proof.
  induction theirs as [|t theirs IH]; intros remaining Hr Hin Hrem; [destruct Hin|].
  simpl; destruct Hin as [->|Hin].
  - assert (E : flat_map (diff_step k r) remaining = []).
    { clear - Hr Hrem; induction remaining as [|x rem IHr]; simpl; [reflexivity|].
      rewrite (diff_step_inside k r Hr x (Hrem x (or_introl eq_refl))); simpl.
      apply IHr; intros y Hy; apply Hrem; right; exact Hy. }
    rewrite E; apply diff_fold_nil.
  - apply IH; [exact Hr|exact Hin|].
    intros y Hy; apply in_flat_map in Hy; destruct Hy as (x & Hx & Hy).
    pose proof (Hrem x Hx) as Hrx.
    apply (range_within_trans r x y Hrx).
    apply (diff_step_within k t x y); [unfold range_within in Hrx; lia|exact Hy].
Qed.

Lemma map_get_distinct {V : Type} (m : list (string * V)) k v :
  distinct_keys m = true -> In (k, v) m -> map_get m k = Some v.
Proof.
  induction m as [|[k' v'] m IH]; simpl; [intros _ []|].
  intros H Hin; apply andb_prop in H as [Hk Hm].
  destruct Hin as [E|Hin].
  - injection E as -> ->; rewrite String.eqb_refl; reflexivity.
  - destruct (String.eqb_spec k k') as [->|]; [|exact (IH Hm Hin)].
    exfalso; apply negb_true_iff in Hk.
    assert (existsb (fun e => String.eqb (fst e) k') m = true)
      by (apply existsb_exists; exists (k', v); split; [exact Hin|apply String.eqb_refl]).
    congruence.
Qed.

Lemma ranges_nonempty_in sv k rs r :
  ranges_nonempty sv = true -> In (k, rs) sv -> In r rs -> Range.start r <= Range.end_ r.
Proof.
  unfold ranges_nonempty; intros H Hk Hr.
  rewrite forallb_forall in H; specialize (H _ Hk); simpl in H.
  rewrite forallb_forall in H; apply N.leb_le; exact (H r Hr).
Qed.

Lemma flat_map_all_nil {A B : Type} (f : A -> list B) (l : list A) :
  (forall x, In x l -> f x = []) -> flat_map f l = [].
Proof.
  induction l as [|x l IH]; intros H; simpl; [reflexivity|].
  rewrite (H x (or_introl eq_refl)), IH; [reflexivity|].
  intros y Hy; apply H; right; exact Hy.
Qed.

(** Extra: [diff] against a state vector that does not know a peer returns
    all of our ranges for it unchanged; so [A.diff(empty)] is every range of
    [A], in order. *)
Theorem diff_against_empty (A : StateVector) :
  diff A (from_ranges []) = flat_map snd A.
Proof.
  unfold diff, from_ranges; simpl.
  induction A as [|[k rs] A IH]; simpl; [reflexivity|].
  rewrite IH; f_equal.
  unfold diff_range; simpl.
  induction rs as [|r rs IHr]; simpl; [reflexivity|rewrite IHr; reflexivity].
Qed.

(** Extra: every range [A.diff(B)] returns is non-empty and lies inside one
    of [A]'s ranges, when [A]'s ranges are non-empty; and [A.diff(A)] is
    empty when moreover each peer has one entry in [A]. *)
Theorem diff_within_and_self (A B : StateVector) (Hwf : ranges_nonempty A = true) :
  (forall y, In y (diff A B) ->
     exists k rs r, In (k, rs) A /\ In r rs /\ range_within r y) /\
  (distinct_keys A = true -> diff A A = []).
Proof.
  split.
  - intros y Hy; unfold diff in Hy.
    apply in_flat_map in Hy; destruct Hy as ([k rs] & Hk & Hy).
    apply in_flat_map in Hy; destruct Hy as (r & Hr & Hy).
    exists k, rs, r; split; [exact Hk|split; [exact Hr|]].
    pose proof (ranges_nonempty_in A k rs r Hwf Hk Hr) as Hr'.
    apply (diff_fold_within k r (match map_get B k with Some rs => rs | None => [] end) [r] Hr');
      [|exact Hy].
    intros x [<-|[]]; unfold range_within; lia.
  - intros Hd; unfold diff; apply flat_map_all_nil.
    intros [k rs] Hk; rewrite (map_get_distinct A k rs Hd Hk).
    apply flat_map_all_nil; intros r Hr.
    pose proof (ranges_nonempty_in A k rs r Hwf Hk Hr) as Hr'.
    apply (diff_fold_removed k r rs [r] Hr' Hr).
    intros x [<-|[]]; unfold range_within; lia.
Qed.

Lemma diff_within_and_self_witness :
  ranges_nonempty S5_mine = true /\ diff S5_mine S5_mine = [].
Proof.
  assert (Hwf : ranges_nonempty S5_mine = true) by (vm_compute; reflexivity).
  split; [exact Hwf|].
  exact (proj2 (diff_within_and_self S5_mine S5_mine Hwf) ltac:(vm_compute; reflexivity)).
Defined.

(* ------------------------------------------------------------------ *)
(** ** The operation logs *)




(* ------------------------------------------------------------------ *)
(** ** [apply_ops] *)

Lemma bind_fst_ok {A B : Type} (m : M A) (k : A -> M B) s r :
  fst (bind m k s) = Ok r -> exists a s', m s = (Ok a, s') /\ fst (k a s') = Ok r.
Proof.
  unfold bind; destruct (m s) as [[a|e] s']; simpl; [|discriminate].
  intros H; exists a, s'; split; [reflexivity|exact H].
Qed.

Lemma apply_op_ok_id op s r : fst (apply_op op s) = Ok r -> r = op_id op.
Proof.
  destruct op as [o|o|o]; unfold apply_op; intros H;
    repeat (apply bind_fst_ok in H; destruct H as (? & ? & _ & H));
    simpl in H; injection H as <-; reflexivity.
Qed.

Lemma apply_ops_ok_ids ops : forall s ids,
  fst (apply_ops ops s) = Ok ids -> ids = map op_id ops.
Proof.
  induction ops as [|op ops IH]; intros s ids H; simpl in *.
  - injection H as <-; reflexivity.
  - apply bind_fst_ok in H; destruct H as (r & s1 & E1 & H).
    apply bind_fst_ok in H; destruct H as (rs & s2 & E2 & H).
    simpl in H; injection H as <-.
    rewrite (apply_op_ok_id op s r) by (rewrite E1; reflexivity).
    rewrite (IH s1 rs) by (rewrite E2; reflexivity); reflexivity.
Qed.

Lemma apply_ops_app l1 : forall l2 s,
  apply_ops (l1 ++ l2) s =
  match apply_ops l1 s with
  | (Ok ids1, s1) =>
      match apply_ops l2 s1 with
      | (Ok ids2, s2) => (Ok (ids1 ++ ids2), s2)
      | (Err e, s2) => (Err e, s2)
      end
  | (Err e, s1) => (Err e, s1)
  end.
Proof.
  induction l1 as [|op l1 IH]; intros l2 s; simpl.
  - unfold ret; destruct (apply_ops l2 s) as [[ids|e] s2]; reflexivity.
  - unfold bind at 1 3.
    destruct (apply_op op s) as [[r|e] s1]; [|reflexivity].
    unfold bind; rewrite IH.
    destruct (apply_ops l1 s1) as [[ids1|e] s2]; [|reflexivity].
    unfold ret; cbv iota beta.
    destruct (apply_ops l2 s2) as [[ids2|e] s3]; reflexivity.
Qed.

(** Extra: [apply_ops] applies a batch as the sequence of its parts: on
    [ops1 ++ ops2] it applies [ops1], stops at the first error, and otherwise
    applies [ops2] to the resulting state, concatenating the returned ids;
    when it succeeds, the ids are the operations' own ids, in order. *)
Theorem apply_ops_sequential (ops1 ops2 : list VertexOperation) (s : RepTree) :
  apply_ops (ops1 ++ ops2) s =
  match apply_ops ops1 s with
  | (Ok ids1, s1) =>
      match apply_ops ops2 s1 with
      | (Ok ids2, s2) => (Ok (ids1 ++ ids2), s2)
      | (Err e, s2) => (Err e, s2)
      end
  | (Err e, s1) => (Err e, s1)
  end /\
  (forall ids, fst (apply_ops ops1 s) = Ok ids -> ids = map op_id ops1).
Proof.
  split; [apply apply_ops_app|intros ids; apply apply_ops_ok_ids].
Qed.

(* ------------------------------------------------------------------ *)
(** ** [move_vertex] of an existing vertex *)

Lemma apply_move_existing (mv : MoveVertex.t) (s : RepTree) (v : EncodedVertex.t) (p : string) :
  cache_coherent s ->
  storage_get_vertex (vertices (storage s)) (MoveVertex.target_id mv) = Some v ->
  MoveVertex.parent_id mv = Some p ->
  storage_get_vertex (vertices (storage s)) p <> None ->
  let max_idx := match map snd (get_children_page (vertices (storage s)) p None 1000) with
                 | [] => 0%Z
                 | i :: is => fold_left Z.max is i
                 end in
  exists s', apply_move mv s = (Ok tt, s') /\
    vertices (storage s') =
      storage_put_vertex (vertices (storage s))
        (EncodedVertex.mk (EncodedVertex.id v) (Some p) (wrapping_add_i64 max_idx 1)
           (EncodedVertex.properties v)) /\
    move_log (storage s') = move_log (storage s) /\
    prop_log (storage s') = prop_log (storage s) /\
    state_vector s' = state_vector s /\
    lamport_clock s' = lamport_clock s /\
    peer_id s' = peer_id s.
Proof.
  intros Hc Ht Ep Hp max_idx.
  destruct (get_vertex_coherent (MoveVertex.target_id mv) s Hc) as (c & E1 & Hc1).
  rewrite Ht in E1.
  unfold apply_move; rewrite (bind_ok _ _ _ _ _ E1).
  rewrite Ep.
  destruct (get_vertex_coherent p (with_cache c s) Hc1) as (c2 & E2 & Hc2).
  change (vertices (storage (with_cache c s))) with (vertices (storage s)) in E2.
  destruct (storage_get_vertex (vertices (storage s)) p) as [w|] eqn:Ew; [|contradiction].
  eassert (Hpar : (parent <- get_vertex p ;;
                   if is_some parent then ret tt else throw (Error.VertexNotFound p))
                    (with_cache c s) = (Ok tt, _)).
  { rewrite (bind_ok _ _ _ _ _ E2); reflexivity. }
  rewrite (bind_ok _ _ _ _ _ Hpar); cbn [negb is_some].
  destruct (get_vertex_coherent (MoveVertex.target_id mv) (with_cache c2 (with_cache c s)) Hc2)
    as (c3 & E3 & _).
  change (vertices (storage (with_cache c2 (with_cache c s)))) with (vertices (storage s)) in E3.
  rewrite Ht in E3.
  rewrite (bind_ok _ _ _ _ _ E3).
  eexists; split; [reflexivity|]; cbn.
  repeat split; reflexivity.
Qed.

Lemma move_vertex_existing_steps (s : RepTree) (vid p : VertexId) (v : EncodedVertex.t) :
  cache_coherent s ->
  storage_get_vertex (vertices (storage s)) vid = Some v ->
  storage_get_vertex (vertices (storage s)) p <> None ->
  let max_idx := match map snd (get_children_page (vertices (storage s)) p None 1000) with
                 | [] => 0%Z
                 | i :: is => fold_left Z.max is i
                 end in
  exists s', move_vertex vid (Some p) s = (Ok (OpId.new (peer_id s) (lamport_clock s)), s') /\
    vertices (storage s') =
      storage_put_vertex (vertices (storage s))
        (EncodedVertex.mk vid (Some p) (wrapping_add_i64 max_idx 1) (EncodedVertex.properties v)).
Proof.
  intros Hc Hv Hp max_idx.
  pose proof (storage_get_vertex_id _ _ _ Hv) as Hid.
  set (L1 := wrapping_add_u64 (lamport_clock s) 1).
  set (s1 := with_lamport L1 s).
  set (mv := MoveVertex.mk (OpId.new (peer_id s) (lamport_clock s)) vid (Some p) L1).
  assert (Hnew : new_op_id s = (Ok (OpId.new (peer_id s) (lamport_clock s)), s1)) by reflexivity.
  assert (Hgets : gets lamport_clock s1 = (Ok L1, s1)) by reflexivity.
  set (s2 := with_lamport (wrapping_add_u64 (N.max L1 L1) 1) s1).
  assert (Hupd : update_lamport_clock (MoveVertex.timestamp mv) s1 = (Ok tt, s2)) by reflexivity.
  destruct (apply_move_existing mv s2 v p Hc Hv eq_refl Hp) as (s3 & Emv & Hv3 & _).
  eassert (Hop : apply_op (Move mv) s1 = (Ok (MoveVertex.id mv), _)).
  { unfold apply_op; rewrite (bind_ok _ _ _ _ _ Hupd), (bind_ok _ _ _ _ _ Emv); reflexivity. }
  unfold move_vertex; rewrite (bind_ok _ _ _ _ _ Hnew), (bind_ok _ _ _ _ _ Hgets).
  rewrite (bind_ok _ _ _ _ _ Hop).
  eexists; split; [reflexivity|]; cbn.
  rewrite Hv3, Hid; reflexivity.
Qed.

(** Extra: on a reachable replica, [move_vertex(v, Some p)] of a vertex the
    store holds, under a parent it holds, returns [OpId(peer, lamport)]; then
    [get_vertex(v)] returns the vertex with parent [p], its properties kept,
    and index one above the largest index on the first page (1000 rows) of
    [p]'s children as [get_children_page] lists them before the move (0 when
    that page is empty), with [i64] wrap-around. *)
Theorem move_vertex_then_get (s : RepTree) (vid p : VertexId) (v : EncodedVertex.t)
  (Hs : reachable s) (Hv : storage_get_vertex (vertices (storage s)) vid = Some v)
  (Hp : storage_get_vertex (vertices (storage s)) p <> None) :
  fst (move_vertex vid (Some p) s) = Ok (OpId.new (peer_id s) (lamport_clock s)) /\
  fst (get_vertex vid (snd (move_vertex vid (Some p) s))) =
    Ok (Some (EncodedVertex.mk vid (Some p)
                (wrapping_add_i64
                   (match map snd (get_children_page (vertices (storage s)) p None 1000) with
                    | [] => 0%Z
                    | i :: is => fold_left Z.max is i
                    end) 1)
                (EncodedVertex.properties v))).
Proof.
  pose proof (reachable_coherent s Hs) as Hc.
  pose proof (keeps_move_vertex vid (Some p) s Hc) as Hc'.
  destruct (move_vertex_existing_steps s vid p v Hc Hv Hp) as (s' & E & Hvs).
  rewrite E in Hc' |- *; simpl in Hc' |- *.
  split; [reflexivity|].
  rewrite (get_vertex_reads_store vid s' Hc'), Hvs, storage_put_get; simpl.
  rewrite String.eqb_refl; reflexivity.
Qed.

Lemma move_vertex_then_get_witness :
  reachable (replica_after scenario_S2 fresh_replica) /\
  fst (get_vertex "c1" (snd (move_vertex "c1" (Some "root"%string)
                               (replica_after scenario_S2 fresh_replica)))) =
    Ok (Some (EncodedVertex.mk "c1" (Some "root"%string) 1 [])).
Proof.
  assert (H : reachable (replica_after scenario_S2 fresh_replica))
    by (apply reachable_apply_ops; apply reachable_new).
  split; [exact H|].
  refine (eq_trans (proj2 (move_vertex_then_get _ "c1" "root" (EncodedVertex.mk "c1" (Some "root"%string) 0 [])
                             H _ _)) _).
  - vm_compute; reflexivity.
  - vm_compute; discriminate.
  - vm_compute; reflexivity.
Defined.
